(** * A fixed-capacity Merkle tree (merkle_tree.hpp, merkle_tree.cpp)

    Shallow embedding of the C++ sources and the properties proved about
    them.  [std::size_t] values are integers in [0, 2^64) with the
    wrap-around of unsigned arithmetic written out; [std::array] is a list
    of fixed length read and written by index; an exception is a value of
    [outcome]; the two [std::hash] specialisations the code calls are the
    operations of the class [StdHash]. *)

From stdpp Require Import base numbers option list strings.

Local Open Scope Z_scope.

(** ** Machine integers *)

Definition size_t_modulus : Z := 2 ^ 64.

(** Unsigned arithmetic on [std::size_t] is modulo 2^64. *)
Definition wrap (x : Z) : Z := x `mod` size_t_modulus.

Definition in_size_t (x : Z) : Prop := 0 ≤ x < size_t_modulus.

(** ** std::array

    [operator[]] on a [std::array] has no bounds check: an access outside
    the array is undefined behaviour, here [None]. *)

Definition array_read {A} (a : list A) (i : Z) : option A :=
  if decide (0 ≤ i < Z.of_nat (length a)) then a !! Z.to_nat i else None.

Definition array_write {A} (a : list A) (i : Z) (v : A) : option (list A) :=
  if decide (0 ≤ i < Z.of_nat (length a)) then Some (<[Z.to_nat i := v]> a) else None.

(** ** std::hash

    merkle_tree.cpp uses [std::hash<hash_t>] and [std::hash<std::string>];
    the C++ standard fixes only their type, so they are operations of a
    class, with results in the range of [std::size_t]. *)

Class StdHash := {
  hash_size_t : Z → Z;
  hash_string : string → Z;
  hash_size_t_range : ∀ x, in_size_t (hash_size_t x);
  hash_string_range : ∀ s, in_size_t (hash_string s)
}.

(** ** merkle_tree.hpp: constants *)

Definition treeHeight : Z := 5.

Definition treeCapacity : Z := Z.shiftl 1 treeHeight.

(** ** merkle_tree_exceptions.hpp *)

Inductive exn : Set :=
  | MerkleTreeFullException
  | MerkleNodeIndexOutOfRangeException
  | MerkleTreeEmptyException.

(** What a call does: return, throw, or run into undefined behaviour (an
    array access out of bounds, a recursion that does not end). *)
Inductive outcome (A : Type) : Type :=
  | Ok (a : A)
  | Throw (e : exn)
  | Undefined.

Arguments Ok {A} a.
Arguments Throw {A} e.
Arguments Undefined {A}.

Definition of_option {A} (o : option A) : outcome A :=
  match o with
  | Some a => Ok a
  | None => Undefined
  end.

(** ** MerkleTree::MerkleNode *)

Record MerkleNode := mkNode { level : Z; index : Z }.

Definition getIndex (n : MerkleNode) : Z := index n.

Definition isLeaf (n : MerkleNode) : bool := bool_decide (level n = treeHeight).

Definition getLeftChild (n : MerkleNode) : MerkleNode :=
  mkNode (wrap (level n + 1)) (wrap (2 * index n)).

Definition getRightChild (n : MerkleNode) : MerkleNode :=
  mkNode (wrap (level n + 1)) (wrap (2 * index n + 1)).

Definition getSiblingNode (n : MerkleNode) : MerkleNode :=
  if bool_decide (index n `mod` 2 = 0)
  then mkNode (level n) (wrap (index n + 1))
  else mkNode (level n) (wrap (index n - 1)).

(** The loop of [getPathFromLeafToRoot]: [pathNodeLevel] runs from
    [treeHeight] down to 1.  [None]: the fuel ran out, or a write fell
    outside [path]. *)
Fixpoint pathLoop (fuel : nat) (pathNodeLevel pathNodeIndex : Z)
    (path : list MerkleNode) : option (list MerkleNode) :=
  if pathNodeLevel >? 0 then
    match fuel with
    | O => None
    | S fuel' =>
        let pathNode := mkNode pathNodeLevel pathNodeIndex in
        path' ← array_write path (wrap (treeHeight - pathNodeLevel)) pathNode;
        pathLoop fuel' (wrap (pathNodeLevel - 1)) (pathNodeIndex `div` 2) path'
    end
  else Some path.

Definition getPathFromLeafToRoot (n : MerkleNode) : option (list MerkleNode) :=
  pathLoop (Z.to_nat treeHeight) treeHeight (index n)
    (replicate (Z.to_nat treeHeight) (mkNode 0 0)).

(** ** MerkleTree *)

Record MerkleTree := mkTree {
  currentRootHash : Z;
  currentTreeSize : Z;
  treeLeafNodes : list Z
}.

(** [MerkleTree() = default] with the member initialisers of the header. *)
Definition emptyTree : MerkleTree :=
  mkTree 0 0 (replicate (Z.to_nat treeCapacity) 0).

Definition isFull (t : MerkleTree) : bool :=
  bool_decide (currentTreeSize t = treeCapacity).

Definition isEmpty (t : MerkleTree) : bool :=
  bool_decide (currentTreeSize t = 0).

Section Operations.

Context `{StdHash}.

(** The hash of a parent from the hashes of its children, the expression
    [std::hash<hash_t>()(a + b)] of [getNodeHash] and of [verifyProof]. *)
Definition combine (a b : Z) : Z := hash_size_t (wrap (a + b)).

(** [getNodeHash] recurses on the children until it meets a leaf; [fuel]
    bounds the depth of the recursion. *)
Fixpoint getNodeHash_rec (fuel : nat) (leaves : list Z) (node : MerkleNode)
    : option Z :=
  if isLeaf node then array_read leaves (getIndex node)
  else
    match fuel with
    | O => None
    | S fuel' =>
        leftChildHash ← getNodeHash_rec fuel' leaves (getLeftChild node);
        rightChildHash ← getNodeHash_rec fuel' leaves (getRightChild node);
        Some (combine leftChildHash rightChildHash)
    end.

Definition getNodeHash (t : MerkleTree) (node : MerkleNode) : option Z :=
  getNodeHash_rec (Z.to_nat treeHeight) (treeLeafNodes t) node.

Definition addHashOf (data : string) (t : MerkleTree) : outcome unit * MerkleTree :=
  if isFull t then (Throw MerkleTreeFullException, t)
  else
    let dataHash := hash_string data in
    match array_write (treeLeafNodes t) (currentTreeSize t) dataHash with
    | None => (Undefined, t)
    | Some leaves =>
        let t1 := mkTree (currentRootHash t) (wrap (currentTreeSize t + 1)) leaves in
        match getNodeHash t1 (mkNode 0 0) with
        | None => (Undefined, t1)
        | Some h => (Ok (), mkTree h (currentTreeSize t1) (treeLeafNodes t1))
        end
    end.

Definition getRootHash (t : MerkleTree) : outcome Z :=
  if isEmpty t then Throw MerkleTreeEmptyException
  else Ok (currentRootHash t).

(** The loop of [generateProof] over [i = 0 .. pathFromLeafToRoot.size()),
    [todo] iterations still to run. *)
Fixpoint siblingLoop (todo : nat) (i : Z) (t : MerkleTree)
    (pathFromLeafToRoot : list MerkleNode) (siblingHashes : list Z)
    : option (list Z) :=
  match todo with
  | O => Some siblingHashes
  | S todo' =>
      pathNode ← array_read pathFromLeafToRoot i;
      h ← getNodeHash t (getSiblingNode pathNode);
      siblingHashes' ← array_write siblingHashes i h;
      siblingLoop todo' (i + 1) t pathFromLeafToRoot siblingHashes'
  end.

Definition generateProof (t : MerkleTree) (leafNodeIndex : Z) : outcome (list Z) :=
  if isEmpty t then Throw MerkleTreeEmptyException
  else if leafNodeIndex >=? currentTreeSize t
  then Throw MerkleNodeIndexOutOfRangeException
  else
    let leafNode := mkNode treeHeight leafNodeIndex in
    of_option (
      pathFromLeafToRoot ← getPathFromLeafToRoot leafNode;
      siblingLoop (length pathFromLeafToRoot) 0 t pathFromLeafToRoot
        (replicate (Z.to_nat treeHeight) 0)).

Definition verifyProof (rootHash : Z) (proof : list Z) (data : string) : bool :=
  let computedHash :=
    fold_left (λ computedHash proofHash, combine computedHash proofHash)
      proof (hash_string data) in
  bool_decide (computedHash = rootHash).

(** A run of appends, as the tests do it: in order, until one throws. *)
Fixpoint addAll (ds : list string) (t : MerkleTree) : outcome unit * MerkleTree :=
  match ds with
  | [] => (Ok (), t)
  | d :: ds' =>
      match addHashOf d t with
      | (Ok _, t') => addAll ds' t'
      | r => r
      end
  end.

End Operations.

(** ** Two hash engines

    FNV-1a over the bytes of the argument, and the identity on
    [std::size_t]; both are schemes that standard libraries use for
    [std::hash].  The theorems below hold for every [StdHash]; these two
    serve as concrete engines to run the code on. *)

Definition fnv_offset_basis : Z := 14695981039346656037.

Definition fnv_prime : Z := 1099511628211.

Definition fnv1a_append_bytes (val : Z) (bytes : list Z) : Z :=
  fold_left (λ v b, wrap (Z.lxor v b * fnv_prime)) bytes val.

Definition bytes_of_string (s : string) : list Z :=
  (λ c, Z.of_N (Ascii.N_of_ascii c)) <$> String.list_ascii_of_string s.

(** The eight bytes of a [std::size_t], least significant first. *)
Definition bytes_of_size_t (x : Z) : list Z :=
  (λ k, (x `div` 256 ^ k) `mod` 256) <$> [0; 1; 2; 3; 4; 5; 6; 7].

Definition size_t_modulus_pos : 0 < size_t_modulus := eq_refl.

#[local] Instance fnv1a_hash : StdHash := {|
  hash_size_t x := wrap (fnv1a_append_bytes fnv_offset_basis (bytes_of_size_t x));
  hash_string s := wrap (fnv1a_append_bytes fnv_offset_basis (bytes_of_string s));
  hash_size_t_range x := Z.mod_pos_bound _ _ size_t_modulus_pos;
  hash_string_range s := Z.mod_pos_bound _ _ size_t_modulus_pos
|}.

Definition identity_hash : StdHash := {|
  hash_size_t x := wrap x;
  hash_string s := wrap (fnv1a_append_bytes fnv_offset_basis (bytes_of_string s));
  hash_size_t_range x := Z.mod_pos_bound _ _ size_t_modulus_pos;
  hash_string_range s := Z.mod_pos_bound _ _ size_t_modulus_pos
|}.

(** A third engine: the identity on [std::size_t] again, and a string
    hashed to the number it spells in decimal digits, modulo 2^64.  Its
    hashes can be read off the items. *)

Definition digit_value (c : Ascii.ascii) : Z := Z.of_N (Ascii.N_of_ascii c) - 48.

Definition decimal_value (s : string) : Z :=
  fold_left (λ acc c, 10 * acc + digit_value c) (String.list_ascii_of_string s) 0.

Definition numeral_hash : StdHash := {|
  hash_size_t x := wrap x;
  hash_string s := wrap (decimal_value s);
  hash_size_t_range x := Z.mod_pos_bound _ _ size_t_modulus_pos;
  hash_string_range s := Z.mod_pos_bound _ _ size_t_modulus_pos
|}.

(** Under [numeral_hash]: one item, the proof for it, and two further
    items whose hashes sum to 2^64. *)

Definition cancel_tree : MerkleTree := (@addAll numeral_hash ["5"] emptyTree).2.

Definition cancel_proof : list Z :=
  match @generateProof numeral_hash cancel_tree 0 with
  | Ok proof => proof
  | _ => []
  end.

Definition cancel_tree_later : MerkleTree :=
  (@addAll numeral_hash ["1"; "18446744073709551615"] cancel_tree).2.

(** ** The scenario of merkle_tree_tests.cpp

    Three items appended to a fresh tree, the proof for the second, and a
    fourth item appended afterwards, under the FNV-1a engine. *)

Definition test_data : list string := ["data1"; "data2"; "data3"].

Definition test_tree : MerkleTree := (addAll test_data emptyTree).2.

Definition test_root : Z := currentRootHash test_tree.

Definition test_proof : list Z :=
  match generateProof test_tree 1 with
  | Ok proof => proof
  | _ => []
  end.

Definition test_tree_later : MerkleTree := (addAll ["data4"] test_tree).2.

(** A tree filled to its capacity with the same item. *)
Definition full_tree : MerkleTree :=
  (addAll (replicate (Z.to_nat treeCapacity) "data") emptyTree).2.

(** ** Specification-side definitions *)

(** The class invariant of [MerkleTree]: the leaf array has its declared
    length and the fill count does not exceed the capacity. *)
Definition wf (t : MerkleTree) : Prop :=
  length (treeLeafNodes t) = Z.to_nat treeCapacity ∧
  0 ≤ currentTreeSize t ≤ treeCapacity.

(** The index of the other child of the same parent. *)
Definition siblingIndex (j : Z) : Z :=
  if bool_decide (j `mod` 2 = 0) then j + 1 else j - 1.

Section Specification.

Context `{StdHash}.

(** The hash of the node [d] levels above the leaves, at index [idx] of
    its level, by recursion on [d]. *)
Fixpoint subtreeHash (leaves : list Z) (d : nat) (idx : Z) : Z :=
  match d with
  | O => default 0 (leaves !! Z.to_nat idx)
  | S d' =>
      combine (subtreeHash leaves d' (2 * idx)) (subtreeHash leaves d' (2 * idx + 1))
  end.

(** The leaf array after appending [ds] to the empty tree. *)
Definition leavesOf (ds : list string) : list Z :=
  (hash_string <$> ds) ++ replicate (Z.to_nat treeCapacity - length ds)%nat 0.

(** The root hash as a function of the appended data alone. *)
Definition rootOfData (ds : list string) : Z :=
  subtreeHash (leavesOf ds) (Z.to_nat treeHeight) 0.

(** The sibling hashes along the path from leaf [i] to the root. *)
Definition proofOf (leaves : list Z) (i : Z) : list Z :=
  [ subtreeHash leaves 0 (siblingIndex i);
    subtreeHash leaves 1 (siblingIndex (i `div` 2));
    subtreeHash leaves 2 (siblingIndex ((i `div` 2) `div` 2));
    subtreeHash leaves 3 (siblingIndex (((i `div` 2) `div` 2) `div` 2));
    subtreeHash leaves 4 (siblingIndex ((((i `div` 2) `div` 2) `div` 2) `div` 2)) ].

(** What [verifyProof] computes before the final comparison. *)
Definition replay (computedHash : Z) (proof : list Z) : Z :=
  fold_left (λ c p, combine c p) proof computedHash.

(** [hash_size_t] separates the two replays of [proof], from [c] and from
    [c'], wherever they feed it different sums. *)
Fixpoint no_collision_along (c c' : Z) (proof : list Z) : Prop :=
  match proof with
  | [] => True
  | p :: ps =>
      (wrap (c + p) ≠ wrap (c' + p) →
       hash_size_t (wrap (c + p)) ≠ hash_size_t (wrap (c' + p))) ∧
      no_collision_along (combine c p) (combine c' p) ps
  end.

(** The state after the appends [ds]. *)
Definition Inv (ds : list string) (t : MerkleTree) : Prop :=
  (length ds ≤ Z.to_nat treeCapacity)%nat ∧
  treeLeafNodes t = leavesOf ds ∧
  currentTreeSize t = Z.of_nat (length ds) ∧
  (ds = [] → currentRootHash t = 0) ∧
  (ds ≠ [] → getNodeHash t (mkNode 0 0) = Some (currentRootHash t)).

(** The leaf array with the entries at [2k] and [2k+1] exchanged. *)
Definition swapSiblingLeaves (k : Z) (leaves : list Z) : list Z :=
  <[Z.to_nat (2 * k) := default 0 (leaves !! Z.to_nat (2 * k + 1))]>
    (<[Z.to_nat (2 * k + 1) := default 0 (leaves !! Z.to_nat (2 * k))]> leaves).

Definition withLeaves (t : MerkleTree) (leaves : list Z) : MerkleTree :=
  mkTree (currentRootHash t) (currentTreeSize t) leaves.

End Specification.

(** The states a program can bring a tree into: the public operations
    that change it are the constructor and [addHashOf]. *)
Inductive reachable `{StdHash} : MerkleTree → Prop :=
  | reachable_empty : reachable emptyTree
  | reachable_add t data : reachable t → reachable (addHashOf data t).2.

(** The hash of a subtree of depth [d] all of whose leaves hold the
    placeholder 0. *)
Definition emptySubtreeHash `{StdHash} (d : nat) : Z :=
  Nat.iter d (λ h, combine h h) 0.

(** * Properties *)

(** [lia] is to know the quotient and remainder of a division. *)
Ltac Zify.zify_post_hook ::= Z.to_euclidean_division_equations.

Section Properties.

Context `{StdHash}.

Implicit Types (t : MerkleTree) (leaves proof : list Z) (ds : list string).

Lemma wrap_small x : in_size_t x → wrap x = x.
Proof. intros Hx. apply Z.mod_small, Hx. Qed.

Lemma wrap_range x : in_size_t (wrap x).
Proof. apply Z.mod_pos_bound. reflexivity. Qed.

Lemma in_size_t_small x : 0 ≤ x ≤ 64 → in_size_t x.
Proof. unfold in_size_t, size_t_modulus. lia. Qed.

Lemma combine_range a b : in_size_t (combine a b).
Proof. apply hash_size_t_range. Qed.

Lemma combine_sym a b : combine a b = combine b a.
Proof. unfold combine. by rewrite Z.add_comm. Qed.

Lemma array_read_lookup {A} (a : list A) i :
  0 ≤ i < Z.of_nat (length a) → array_read a i = a !! Z.to_nat i.
Proof. intros Hi. unfold array_read. by rewrite decide_True. Qed.

Lemma array_write_insert {A} (a : list A) i v :
  0 ≤ i < Z.of_nat (length a) → array_write a i v = Some (<[Z.to_nat i := v]> a).
Proof. intros Hi. unfold array_write. by rewrite decide_True. Qed.

Lemma lookup_default leaves (n : nat) :
  (n < length leaves)%nat → leaves !! n = Some (default 0 (leaves !! n)).
Proof. intros Hn. by destruct (lookup_lt_is_Some_2 leaves n Hn) as [x ->]. Qed.

(** [getNodeHash] on the node [d] levels above the leaves, with fuel
    enough to reach them, returns the hash of that subtree. *)
Lemma getNodeHash_rec_subtree leaves (d : nat) :
  length leaves = Z.to_nat treeCapacity →
  ∀ (fuel : nat) idx,
    (d ≤ fuel)%nat → Z.of_nat d ≤ treeHeight →
    0 ≤ idx < 2 ^ (treeHeight - Z.of_nat d) →
    getNodeHash_rec fuel leaves (mkNode (treeHeight - Z.of_nat d) idx)
    = Some (subtreeHash leaves d idx).
Proof.
  intros Hlen. induction d as [|d IH]; intros fuel idx Hfuel Hd Hidx.
  - replace (treeHeight - Z.of_nat 0) with treeHeight in * by lia.
    assert (0 ≤ idx < Z.of_nat (length leaves)).
    { rewrite Hlen. change (Z.to_nat treeCapacity) with 32%nat.
      change treeHeight with 5 in Hidx. lia. }
    destruct fuel; simpl; unfold isLeaf; simpl.
    all: rewrite array_read_lookup by done; apply lookup_default; lia.
  - destruct fuel as [|fuel]; [lia|].
    assert (Hpow : 2 ^ (treeHeight - Z.of_nat d) = 2 * 2 ^ (treeHeight - Z.of_nat (S d))).
    { rewrite <- Z.pow_succ_r by lia. f_equal. lia. }
    assert (2 ^ (treeHeight - Z.of_nat d) ≤ 32).
    { change 32 with (2 ^ 5). apply Z.pow_le_mono_r; unfold treeHeight; lia. }
    simpl. unfold isLeaf. simpl.
    rewrite bool_decide_eq_false_2 by lia.
    unfold getLeftChild, getRightChild. simpl.
    rewrite !wrap_small by (apply in_size_t_small; unfold treeHeight in *; lia).
    replace (treeHeight - Z.of_nat (S d) + 1) with (treeHeight - Z.of_nat d) by lia.
    rewrite !IH by lia. done.
Qed.

Lemma getNodeHash_subtree t (d : nat) idx :
  length (treeLeafNodes t) = Z.to_nat treeCapacity →
  Z.of_nat d ≤ treeHeight →
  0 ≤ idx < 2 ^ (treeHeight - Z.of_nat d) →
  getNodeHash t (mkNode (treeHeight - Z.of_nat d) idx)
  = Some (subtreeHash (treeLeafNodes t) d idx).
Proof.
  intros Hlen Hd Hidx. unfold getNodeHash.
  apply getNodeHash_rec_subtree; [done| |done..].
  change treeHeight with 5 in Hd. change (Z.to_nat treeHeight) with 5%nat. lia.
Qed.

Lemma getNodeHash_root t :
  length (treeLeafNodes t) = Z.to_nat treeCapacity →
  getNodeHash t (mkNode 0 0)
  = Some (subtreeHash (treeLeafNodes t) (Z.to_nat treeHeight) 0).
Proof.
  intros Hlen. apply (getNodeHash_subtree t 5 0 Hlen); done.
Qed.

Lemma siblingIndex_cases j :
  (j `mod` 2 = 0 ∧ siblingIndex j = j + 1 ∧ j = 2 * (j `div` 2)) ∨
  (j `mod` 2 = 1 ∧ siblingIndex j = j - 1 ∧ j = 2 * (j `div` 2) + 1).
Proof.
  unfold siblingIndex. pose proof (Z.div_mod j 2). pose proof (Z.mod_pos_bound j 2).
  case_bool_decide; [left|right]; lia.
Qed.

Lemma siblingIndex_range j m : 0 ≤ j < 2 * m → 0 ≤ siblingIndex j < 2 * m.
Proof. intros Hj. destruct (siblingIndex_cases j) as [(?&->&?)|(?&->&?)]; lia. Qed.

Lemma siblingIndex_nonneg j : 0 ≤ j → 0 ≤ siblingIndex j.
Proof. intros Hj. destruct (siblingIndex_cases j) as [(?&->&?)|(?&->&?)]; lia. Qed.

Lemma getSiblingNode_index l j :
  0 ≤ j < 64 → getSiblingNode (mkNode l j) = mkNode l (siblingIndex j).
Proof.
  intros Hj. unfold getSiblingNode, siblingIndex. simpl.
  case_bool_decide; f_equal; apply wrap_small, in_size_t_small.
  - lia.
  - pose proof (Z.div_mod j 2). pose proof (Z.mod_pos_bound j 2). lia.
Qed.

(** A node and its sibling combine to their parent, whichever of the two
    is the left child. *)
Lemma combine_sibling leaves (d : nat) j :
  combine (subtreeHash leaves d j) (subtreeHash leaves d (siblingIndex j))
  = subtreeHash leaves (S d) (j `div` 2).
Proof.
  simpl. destruct (siblingIndex_cases j) as [(?&->&Hj)|(?&->&Hj)].
  - by rewrite <- Hj.
  - rewrite combine_sym. replace (j - 1) with (2 * (j `div` 2)) by lia.
    by rewrite <- Hj.
Qed.

Lemma getPathFromLeafToRoot_eq l i :
  getPathFromLeafToRoot (mkNode l i)
  = Some [ mkNode 5 i;
           mkNode 4 (i `div` 2);
           mkNode 3 ((i `div` 2) `div` 2);
           mkNode 2 (((i `div` 2) `div` 2) `div` 2);
           mkNode 1 ((((i `div` 2) `div` 2) `div` 2) `div` 2) ].
Proof. reflexivity. Qed.

Lemma getNodeHash_sibling t (d : nat) j :
  length (treeLeafNodes t) = Z.to_nat treeCapacity →
  Z.of_nat d < treeHeight →
  0 ≤ j < 2 ^ (treeHeight - Z.of_nat d) →
  getNodeHash t (getSiblingNode (mkNode (treeHeight - Z.of_nat d) j))
  = Some (subtreeHash (treeLeafNodes t) d (siblingIndex j)).
Proof.
  intros Hlen Hd Hj.
  assert (Hpow : 2 ^ (treeHeight - Z.of_nat d) = 2 * 2 ^ (treeHeight - Z.of_nat d - 1)).
  { rewrite <- Z.pow_succ_r by lia. f_equal. lia. }
  assert (2 ^ (treeHeight - Z.of_nat d) ≤ 32).
  { change 32 with (2 ^ 5). apply Z.pow_le_mono_r; unfold treeHeight; lia. }
  rewrite getSiblingNode_index by lia.
  apply getNodeHash_subtree; [done|lia|].
  rewrite Hpow. apply siblingIndex_range. lia.
Qed.

Lemma siblingLoop_eq t n0 n1 n2 n3 n4 :
  siblingLoop 5 0 t [n0; n1; n2; n3; n4] [0; 0; 0; 0; 0]
  = h0 ← getNodeHash t (getSiblingNode n0);
    h1 ← getNodeHash t (getSiblingNode n1);
    h2 ← getNodeHash t (getSiblingNode n2);
    h3 ← getNodeHash t (getSiblingNode n3);
    h4 ← getNodeHash t (getSiblingNode n4);
    Some [h0; h1; h2; h3; h4].
Proof.
  unfold siblingLoop. generalize (getNodeHash t) getSiblingNode.
  intros nodeHash sibling. reflexivity.
Qed.

(** On a non-empty tree and an index below the fill count [generateProof]
    returns the sibling hashes along the path. *)
Lemma generateProof_ok t i :
  wf t → 0 ≤ i < currentTreeSize t →
  generateProof t i = Ok (proofOf (treeLeafNodes t) i).
Proof.
  intros [Hlen Hsize] Hi. change treeCapacity with 32 in Hsize.
  unfold generateProof, isEmpty.
  rewrite bool_decide_eq_false_2 by lia.
  destruct (Z.geb_spec i (currentTreeSize t)) as [?|_]; [lia|].
  rewrite getPathFromLeafToRoot_eq. cbn [mbind option_bind length].
  change (replicate _ 0) with [0; 0; 0; 0; 0]. rewrite siblingLoop_eq.
  pose proof (getNodeHash_sibling t 0 i Hlen) as H0.
  pose proof (getNodeHash_sibling t 1 (i `div` 2) Hlen) as H1.
  pose proof (getNodeHash_sibling t 2 ((i `div` 2) `div` 2) Hlen) as H2.
  pose proof (getNodeHash_sibling t 3 (((i `div` 2) `div` 2) `div` 2) Hlen) as H3.
  pose proof (getNodeHash_sibling t 4 ((((i `div` 2) `div` 2) `div` 2) `div` 2) Hlen) as H4.
  change (treeHeight - Z.of_nat 0) with 5 in H0.
  change (treeHeight - Z.of_nat 1) with 4 in H1.
  change (treeHeight - Z.of_nat 2) with 3 in H2.
  change (treeHeight - Z.of_nat 3) with 2 in H3.
  change (treeHeight - Z.of_nat 4) with 1 in H4.
  change treeHeight with 5 in *.
  rewrite H0, H1, H2, H3, H4; [reflexivity|..].
  all: clear H0 H1 H2 H3 H4; lia.
Qed.

(** Replaying the proof of leaf [i] from the hash stored at [i] climbs
    the path and ends at the root. *)
Lemma replay_proofOf leaves i :
  0 ≤ i < treeCapacity →
  replay (subtreeHash leaves 0 i) (proofOf leaves i)
  = subtreeHash leaves (Z.to_nat treeHeight) 0.
Proof.
  intros Hi. change treeCapacity with 32 in Hi.
  unfold replay, proofOf. cbn [fold_left].
  rewrite !combine_sibling.
  change (Z.to_nat treeHeight) with 5%nat. f_equal. lia.
Qed.

Lemma verifyProof_replay rootHash proof data :
  verifyProof rootHash proof data
  = bool_decide (replay (hash_string data) proof = rootHash).
Proof. reflexivity. Qed.

Lemma addHashOf_full t data :
  currentTreeSize t = treeCapacity →
  addHashOf data t = (Throw MerkleTreeFullException, t).
Proof.
  intros Hfull. unfold addHashOf, isFull. by rewrite bool_decide_eq_true_2.
Qed.

Lemma addHashOf_ok t data :
  wf t → currentTreeSize t ≠ treeCapacity →
  let leaves := <[Z.to_nat (currentTreeSize t) := hash_string data]> (treeLeafNodes t) in
  addHashOf data t
  = (Ok (), mkTree (subtreeHash leaves (Z.to_nat treeHeight) 0)
                   (currentTreeSize t + 1) leaves).
Proof.
  intros [Hlen Hsize] Hfull leaves. change treeCapacity with 32 in Hsize, Hfull.
  unfold addHashOf, isFull.
  rewrite bool_decide_eq_false_2 by done.
  rewrite array_write_insert
    by (rewrite Hlen; change (Z.to_nat treeCapacity) with 32%nat; lia).
  fold leaves. cbv zeta.
  rewrite getNodeHash_root by (simpl; unfold leaves; by rewrite length_insert).
  simpl. rewrite wrap_small by (apply in_size_t_small; lia). done.
Qed.

Lemma wf_emptyTree : wf emptyTree.
Proof. split; [reflexivity|]. simpl. change treeCapacity with 32. lia. Qed.

Lemma wf_addHashOf t data : wf t → wf (addHashOf data t).2.
Proof.
  intros Hwf. destruct (decide (currentTreeSize t = treeCapacity)) as [Hfull|Hfull].
  - by rewrite addHashOf_full.
  - rewrite addHashOf_ok by done. destruct Hwf as [Hlen Hsize].
    split; simpl; [by rewrite length_insert|lia].
Qed.

Lemma reachable_wf t : reachable t → wf t.
Proof. induction 1; [apply wf_emptyTree|by apply wf_addHashOf]. Qed.

(** *** The state after a run of appends *)

Lemma leavesOf_length ds :
  (length ds ≤ Z.to_nat treeCapacity)%nat →
  length (leavesOf ds) = Z.to_nat treeCapacity.
Proof.
  intros Hds. unfold leavesOf.
  rewrite length_app, length_fmap, length_replicate. lia.
Qed.

Lemma leavesOf_lookup ds (i : nat) d :
  ds !! i = Some d → leavesOf ds !! i = Some (hash_string d).
Proof.
  intros Hd. unfold leavesOf.
  rewrite lookup_app_l by (rewrite length_fmap; by eapply lookup_lt_Some).
  by rewrite list_lookup_fmap, Hd.
Qed.

Lemma leavesOf_unfilled ds (i : nat) :
  (length ds ≤ i < Z.to_nat treeCapacity)%nat → leavesOf ds !! i = Some 0.
Proof.
  intros Hi. unfold leavesOf.
  rewrite lookup_app_r by (rewrite length_fmap; lia).
  rewrite length_fmap. apply lookup_replicate_2. lia.
Qed.

Lemma leavesOf_snoc ds d :
  (length ds < Z.to_nat treeCapacity)%nat →
  <[length ds := hash_string d]> (leavesOf ds) = leavesOf (ds ++ [d]).
Proof.
  intros Hds. unfold leavesOf.
  replace (length ds) with (length (hash_string <$> ds) + 0)%nat at 1
    by (rewrite length_fmap; lia).
  rewrite insert_app_r, fmap_app, length_app, <- app_assoc. simpl.
  replace (Z.to_nat treeCapacity - length ds)%nat
    with (S (Z.to_nat treeCapacity - (length ds + 1)))%nat by lia.
  done.
Qed.

Lemma Inv_wf ds t : Inv ds t → wf t.
Proof.
  intros (Hds & Hleaves & Hsize & _). split.
  - rewrite Hleaves. by apply leavesOf_length.
  - rewrite Hsize. change treeCapacity with 32 in *. lia.
Qed.

Lemma Inv_emptyTree : Inv [] emptyTree.
Proof. repeat split; try done. simpl. lia. Qed.

Lemma Inv_addHashOf ds t d t' :
  Inv ds t → addHashOf d t = (Ok (), t') → Inv (ds ++ [d]) t'.
Proof.
  intros HInv Hadd. pose proof (Inv_wf _ _ HInv) as Hwf.
  destruct HInv as (Hds & Hleaves & Hsize & _).
  destruct (decide (currentTreeSize t = treeCapacity)) as [Hfull|Hfull].
  { rewrite addHashOf_full in Hadd by done. discriminate. }
  rewrite addHashOf_ok in Hadd by done.
  injection Hadd as <-. simpl.
  rewrite Hsize, Nat2Z.id, Hleaves in *.
  change treeCapacity with 32 in Hfull.
  change (Z.to_nat treeCapacity) with 32%nat in Hds.
  assert (length ds < Z.to_nat treeCapacity)%nat
    by (change (Z.to_nat treeCapacity) with 32%nat; lia).
  rewrite leavesOf_snoc by done.
  unfold Inv. simpl. rewrite length_app. simpl. repeat split.
  - lia.
  - lia.
  - by destruct ds.
  - intros _. apply getNodeHash_root. simpl.
    apply leavesOf_length. rewrite length_app. simpl. lia.
Qed.

Lemma Inv_addAll ds : ∀ ds0 t t',
  Inv ds0 t → addAll ds t = (Ok (), t') → Inv (ds0 ++ ds) t'.
Proof.
  induction ds as [|d ds IH]; intros ds0 t t' HInv Hrun; simpl in Hrun.
  - injection Hrun as <-. by rewrite app_nil_r.
  - destruct (addHashOf d t) as [[[]| |] t1] eqn:Hadd; try discriminate.
    replace (ds0 ++ d :: ds) with ((ds0 ++ [d]) ++ ds) by by rewrite <- app_assoc.
    eapply IH; [|done]. by eapply Inv_addHashOf.
Qed.

Lemma addAll_Inv ds t : addAll ds emptyTree = (Ok (), t) → Inv ds t.
Proof. intros Hrun. apply (Inv_addAll ds [] emptyTree t Inv_emptyTree Hrun). Qed.

(** The cached root of a non-empty tree, in terms of the appended data. *)
Lemma Inv_root ds t : Inv ds t → ds ≠ [] → currentRootHash t = rootOfData ds.
Proof.
  intros HInv Hne. pose proof (Inv_wf _ _ HInv) as [Hlen _].
  destruct HInv as (_ & Hleaves & _ & _ & Hroot).
  specialize (Hroot Hne). rewrite getNodeHash_root in Hroot by done.
  injection Hroot as <-. unfold rootOfData. by rewrite Hleaves.
Qed.

(** *** The combination rule *)

(** C1, as the code has it: the parent hash is [hash_size_t] of the sum of
    the two child hashes modulo 2^64, so it is symmetric: combining
    [(l, r)] and combining [(r, l)] yield the same parent hash, for every
    [l] and [r] and every hash engine. *)
Theorem combine_commutative (l r : Z) :
  combine l r = hash_size_t (wrap (l + r)) ∧ combine l r = combine r l.
Proof. split; [reflexivity|apply combine_sym]. Qed.

(** *** The path from a leaf to the root *)

(** C8: for a leaf index in [0, 2^treeHeight), [getPathFromLeafToRoot]
    returns [treeHeight] addresses; the first is the leaf itself, each next
    one is a level higher with the index halved, and the last is on
    level 1.  Every address on the path is one of the tree: its index is
    below 2^level. *)
Theorem getPathFromLeafToRoot_spec (leafIndex : Z) :
  0 ≤ leafIndex < 2 ^ treeHeight →
  ∃ path,
    getPathFromLeafToRoot (mkNode treeHeight leafIndex) = Some path ∧
    length path = Z.to_nat treeHeight ∧
    path !! 0%nat = Some (mkNode treeHeight leafIndex) ∧
    (∀ (k : nat) a b,
        path !! k = Some a → path !! S k = Some b →
        level b = level a - 1 ∧ index b = index a `div` 2) ∧
    (∃ a, last path = Some a ∧ level a = 1) ∧
    (∀ (k : nat) a, path !! k = Some a → 0 ≤ index a < 2 ^ level a).
Proof.
  intros Hleaf. change treeHeight with 5 in *.
  eexists. split; [apply getPathFromLeafToRoot_eq|].
  split; [reflexivity|]. split; [reflexivity|]. split; [|split].
  - intros k a b Ha Hb.
    do 5 (destruct k as [|k]; [by simplify_eq/=|]). done.
  - eexists. split; reflexivity.
  - intros k a Ha.
    do 5 (destruct k as [|k]; [simplify_eq/=; lia|]). done.
Qed.

(** *** Round trip *)

Lemma Inv_leaf ds t (i : nat) d :
  Inv ds t → ds !! i = Some d →
  subtreeHash (treeLeafNodes t) 0 (Z.of_nat i) = hash_string d.
Proof.
  intros (_ & -> & _) Hd. simpl.
  by rewrite Nat2Z.id, (leavesOf_lookup _ _ _ Hd).
Qed.

Lemma Inv_generate_verify ds t i d :
  Inv ds t → 0 ≤ i → ds !! Z.to_nat i = Some d →
  getRootHash t = Ok (currentRootHash t) ∧
  generateProof t i = Ok (proofOf (treeLeafNodes t) i) ∧
  replay (hash_string d) (proofOf (treeLeafNodes t) i) = currentRootHash t.
Proof.
  intros HInv Hi Hd. pose proof (Inv_wf _ _ HInv) as Hwf.
  pose proof (lookup_lt_Some _ _ _ Hd) as Hlt.
  assert (ds ≠ []) as Hne by (intros ->; simpl in Hlt; lia).
  pose proof (Inv_root _ _ HInv Hne) as Hroot.
  pose proof HInv as (Hds & Hleaves & Hsize & _).
  change (Z.to_nat treeCapacity) with 32%nat in Hds.
  split; [|split].
  - unfold getRootHash, isEmpty. rewrite bool_decide_eq_false_2; [done|lia].
  - apply generateProof_ok; [done|lia].
  - rewrite <- (Inv_leaf ds t (Z.to_nat i) d HInv Hd), Z2Nat.id by done.
    rewrite replay_proofOf by (change treeCapacity with 32; lia).
    by rewrite Hroot, Hleaves.
Qed.

(** C2: after any run of successful appends [ds], for every index
    [0 <= i < size], the proof generated for [i] verifies the [i]-th
    appended item against the current root hash. *)
Theorem proof_round_trip ds t (i : Z) d :
  addAll ds emptyTree = (Ok (), t) →
  0 ≤ i < currentTreeSize t →
  ds !! Z.to_nat i = Some d →
  ∃ rootHash proof,
    getRootHash t = Ok rootHash ∧
    generateProof t i = Ok proof ∧
    verifyProof rootHash proof d = true.
Proof.
  intros Hrun Hi Hd. apply addAll_Inv in Hrun.
  destruct (Inv_generate_verify ds t i d Hrun) as (HR & HP & Hreplay);
    [lia|done|].
  eexists _, _. split; [done|]. split; [done|].
  rewrite verifyProof_replay. by apply bool_decide_eq_true_2.
Qed.

(** *** Tampered data *)

Lemma wrap_add_cancel c c' p :
  in_size_t c → in_size_t c' → wrap (c + p) = wrap (c' + p) → c = c'.
Proof. unfold wrap, in_size_t, size_t_modulus. lia. Qed.

(** Two replays of one proof that start apart stay apart, unless
    [hash_size_t] collides on the way. *)
Lemma replay_distinct proof : ∀ c c',
  in_size_t c → in_size_t c' → c ≠ c' →
  no_collision_along c c' proof →
  replay c proof ≠ replay c' proof.
Proof.
  induction proof as [|p ps IH]; intros c c' Hc Hc' Hne Hfree; [done|].
  destruct Hfree as [Hstep Hfree]. unfold replay in *. simpl.
  apply IH; [apply combine_range..| |done].
  apply Hstep. intros Heq. by apply Hne, (wrap_add_cancel c c' p).
Qed.

(** C3: after a run of successful appends [ds], for an index
    [0 <= i < size] and data [d'] other than the [i]-th item, the proof
    generated for [i] does not verify [d'] against the current root hash,
    provided the leaf hashes of the two items differ and [hash_size_t] does
    not collide on the sums the two replays of the proof feed it. *)
Theorem tamper_sensitivity ds t (i : Z) d d' rootHash proof :
  addAll ds emptyTree = (Ok (), t) →
  0 ≤ i < currentTreeSize t →
  ds !! Z.to_nat i = Some d →
  d' ≠ d →
  getRootHash t = Ok rootHash →
  generateProof t i = Ok proof →
  hash_string d' ≠ hash_string d →
  no_collision_along (hash_string d') (hash_string d) proof →
  verifyProof rootHash proof d' = false.
Proof.
  intros Hrun Hi Hd _ HR HP Hleaf Hfree. apply addAll_Inv in Hrun.
  destruct (Inv_generate_verify ds t i d Hrun) as (HR' & HP' & Hreplay);
    [lia|done|].
  rewrite HR' in HR. rewrite HP' in HP. simplify_eq.
  rewrite verifyProof_replay. apply bool_decide_eq_false_2.
  rewrite <- Hreplay.
  apply replay_distinct; [apply hash_string_range..|done|done].
Qed.

(** *** The cached root hash *)

Lemma addHashOf_cases t data :
  wf t →
  (currentTreeSize t = treeCapacity ∧
   addHashOf data t = (Throw MerkleTreeFullException, t)) ∨
  (currentTreeSize t ≠ treeCapacity ∧ (addHashOf data t).1 = Ok ()).
Proof.
  intros Hwf. destruct (decide (currentTreeSize t = treeCapacity)) as [Hfull|Hfull].
  - left. by rewrite addHashOf_full.
  - right. by rewrite addHashOf_ok.
Qed.

Lemma reachable_Inv t : reachable t → ∃ ds, Inv ds t.
Proof.
  induction 1 as [|t data Hreach [ds HInv]]; [exists []; apply Inv_emptyTree|].
  destruct (addHashOf_cases t data (Inv_wf _ _ HInv)) as [[_ ->]|[_ Hok]].
  - by exists ds.
  - exists (ds ++ [data]). apply (Inv_addHashOf ds t data); [done|].
    destruct (addHashOf data t) as [r t']. simpl in *. by subst.
Qed.

(** C4, as the code has it: in every reachable state that holds at least
    one leaf the stored [currentRootHash] is the hash of the node
    (level 0, index 0) recomputed over the current leaf array; in a
    reachable state that holds none it is the initial 0, and [getRootHash]
    throws instead of returning it. *)
Theorem currentRootHash_fresh t :
  reachable t →
  (currentTreeSize t ≠ 0 →
   getNodeHash t (mkNode 0 0) = Some (currentRootHash t)) ∧
  (currentTreeSize t = 0 →
   currentRootHash t = 0 ∧ getRootHash t = Throw MerkleTreeEmptyException).
Proof.
  intros [ds (Hds & Hleaves & Hsize & Hnil & Hcons)]%reachable_Inv. split.
  - intros Hne. apply Hcons. intros ->. by apply Hne.
  - intros Hzero. split.
    + apply Hnil. destruct ds; [done|]. simpl in Hsize. lia.
    + unfold getRootHash, isEmpty. by rewrite bool_decide_eq_true_2.
Qed.

(** *** Appending *)

(** C5: on every tree state [addHashOf] either returns, having stored
    the leaf hash at index [size], incremented [size] and recomputed the
    root hash, or throws [MerkleTreeFullException] and leaves the leaf
    array, the size and the root hash as they were. *)
Theorem addHashOf_all_or_nothing t data :
  wf t →
  let size := currentTreeSize t in
  let r := (addHashOf data t).1 in
  let t' := (addHashOf data t).2 in
  (r = Ok () ∧
   treeLeafNodes t' = <[Z.to_nat size := hash_string data]> (treeLeafNodes t) ∧
   array_read (treeLeafNodes t') size = Some (hash_string data) ∧
   currentTreeSize t' = size + 1 ∧
   getNodeHash t' (mkNode 0 0) = Some (currentRootHash t'))
  ∨
  (r = Throw MerkleTreeFullException ∧ t' = t).
Proof.
  intros Hwf size r t'. subst size r t'.
  destruct (decide (currentTreeSize t = treeCapacity)) as [Hfull|Hfull].
  - right. by rewrite addHashOf_full.
  - left. rewrite addHashOf_ok by done. simpl.
    destruct Hwf as [Hlen Hsize]. change treeCapacity with 32 in Hsize, Hfull.
    assert (0 ≤ currentTreeSize t < Z.of_nat (length (treeLeafNodes t)))
      by (rewrite Hlen; change (Z.to_nat treeCapacity) with 32%nat; lia).
    repeat split.
    + rewrite array_read_lookup by (by rewrite length_insert).
      apply list_lookup_insert_eq. lia.
    + apply getNodeHash_root. simpl. by rewrite length_insert.
Qed.

(** *** Error boundaries *)

(** C6: on every tree state, [addHashOf] throws
    [MerkleTreeFullException] iff [size = capacity]; [getRootHash] and
    [generateProof] throw [MerkleTreeEmptyException] iff [size = 0]; on a
    non-empty tree [generateProof i] throws
    [MerkleNodeIndexOutOfRangeException] iff [i >= size]; in every other
    case the operation returns. *)
Theorem error_boundaries t data (i : Z) :
  wf t → in_size_t i →
  let size := currentTreeSize t in
  ((addHashOf data t).1 = Throw MerkleTreeFullException ↔ size = treeCapacity) ∧
  (size ≠ treeCapacity → (addHashOf data t).1 = Ok ()) ∧
  (getRootHash t = Throw MerkleTreeEmptyException ↔ size = 0) ∧
  (size ≠ 0 → ∃ rootHash, getRootHash t = Ok rootHash) ∧
  (generateProof t i = Throw MerkleTreeEmptyException ↔ size = 0) ∧
  (size ≠ 0 →
   (generateProof t i = Throw MerkleNodeIndexOutOfRangeException ↔ i >= size)) ∧
  (size ≠ 0 → i < size → ∃ proof, generateProof t i = Ok proof).
Proof.
  intros Hwf [Hi _] size. subst size. repeat split.
  - intros Hthrow. destruct (addHashOf_cases t data Hwf) as [[? _]|[_ Hok]]; [done|].
    congruence.
  - intros Hfull. by rewrite addHashOf_full.
  - intros Hfull. by rewrite addHashOf_ok.
  - unfold getRootHash, isEmpty. by case_bool_decide.
  - intros Hzero. unfold getRootHash, isEmpty. by rewrite bool_decide_eq_true_2.
  - intros Hne. unfold getRootHash, isEmpty. rewrite bool_decide_eq_false_2 by done.
    by eexists.
  - intros Hthrow. destruct (decide (currentTreeSize t = 0)) as [|Hne]; [done|].
    destruct (decide (i < currentTreeSize t)) as [Hlt|Hge].
    + rewrite generateProof_ok in Hthrow; [discriminate|done|lia].
    + unfold generateProof, isEmpty in Hthrow.
      rewrite bool_decide_eq_false_2 in Hthrow by done.
      destruct (Z.geb_spec i (currentTreeSize t)); [discriminate|lia].
  - intros Hzero. unfold generateProof, isEmpty. by rewrite bool_decide_eq_true_2.
  - intros Hthrow. destruct (decide (i < currentTreeSize t)) as [Hlt|Hge]; [|lia].
    rewrite generateProof_ok in Hthrow; [discriminate|done|lia].
  - intros Hge. unfold generateProof, isEmpty.
    rewrite bool_decide_eq_false_2 by done.
    destruct (Z.geb_spec i (currentTreeSize t)); [done|lia].
  - intros Hne Hlt. eexists. apply generateProof_ok; [done|lia].
Qed.

(** *** Determinism *)

(** C9: the root hash is a function of the ordered sequence of appended
    data: two trees built by the same run of appends from the empty tree
    answer [getRootHash] alike, and for a non-empty run the answer is
    [rootOfData] of the sequence. *)
Theorem root_hash_deterministic ds t1 t2 :
  addAll ds emptyTree = (Ok (), t1) →
  addAll ds emptyTree = (Ok (), t2) →
  getRootHash t1 = getRootHash t2 ∧
  getRootHash t1 =
    match ds with
    | [] => Throw MerkleTreeEmptyException
    | _ => Ok (rootOfData ds)
    end.
Proof.
  intros Hrun1 Hrun2. split; [congruence|].
  apply addAll_Inv in Hrun1. pose proof Hrun1 as (_ & _ & Hsize & _).
  unfold getRootHash, isEmpty. destruct ds as [|d ds].
  - by rewrite bool_decide_eq_true_2.
  - rewrite bool_decide_eq_false_2 by (simpl in Hsize; lia).
    f_equal. by apply Inv_root.
Qed.

(** *** Exchanging two sibling leaves *)

Section Exchange.

Variables (k : Z) (leaves : list Z).
Hypothesis Hk : 0 ≤ k.
Hypothesis Hin : (Z.to_nat (2 * k + 1) < length leaves)%nat.

Lemma swapSiblingLeaves_length :
  length (swapSiblingLeaves k leaves) = length leaves.
Proof. unfold swapSiblingLeaves. by rewrite !length_insert. Qed.

Lemma swapSiblingLeaves_other (j : nat) :
  j ≠ Z.to_nat (2 * k) → j ≠ Z.to_nat (2 * k + 1) →
  swapSiblingLeaves k leaves !! j = leaves !! j.
Proof.
  intros Hl Hr. unfold swapSiblingLeaves.
  by rewrite !list_lookup_insert_ne.
Qed.

Lemma swapSiblingLeaves_left :
  swapSiblingLeaves k leaves !! Z.to_nat (2 * k)
  = Some (default 0 (leaves !! Z.to_nat (2 * k + 1))).
Proof.
  unfold swapSiblingLeaves. apply list_lookup_insert_eq.
  rewrite length_insert. lia.
Qed.

Lemma swapSiblingLeaves_right :
  swapSiblingLeaves k leaves !! Z.to_nat (2 * k + 1)
  = Some (default 0 (leaves !! Z.to_nat (2 * k))).
Proof.
  unfold swapSiblingLeaves.
  rewrite list_lookup_insert_ne by lia.
  apply list_lookup_insert_eq. lia.
Qed.

Lemma subtreeHash_swap_leaf j :
  0 ≤ j → j ≠ 2 * k → j ≠ 2 * k + 1 →
  subtreeHash (swapSiblingLeaves k leaves) 0 j = subtreeHash leaves 0 j.
Proof.
  intros Hj Hl Hr. simpl. rewrite swapSiblingLeaves_other by lia. done.
Qed.

(** Above the leaves no hash changes: the parent of the two leaves sums
    them, and a sum does not tell which came first. *)
Lemma subtreeHash_swap_inner (d : nat) : ∀ idx,
  0 ≤ idx →
  subtreeHash (swapSiblingLeaves k leaves) (S d) idx = subtreeHash leaves (S d) idx.
Proof.
  induction d as [|d IH]; intros idx Hidx.
  - destruct (decide (idx = k)) as [->|Hne].
    + cbn [subtreeHash].
      rewrite swapSiblingLeaves_left, swapSiblingLeaves_right.
      apply combine_sym.
    + cbn [subtreeHash]. rewrite !swapSiblingLeaves_other by lia. done.
  - change (subtreeHash ?l (S (S d)) idx)
      with (combine (subtreeHash l (S d) (2 * idx)) (subtreeHash l (S d) (2 * idx + 1))).
    rewrite !IH by lia. done.
Qed.

Lemma proofOf_swap j :
  0 ≤ j → j ≠ 2 * k → j ≠ 2 * k + 1 →
  proofOf (swapSiblingLeaves k leaves) j = proofOf leaves j.
Proof.
  intros Hj Hl Hr. unfold proofOf.
  rewrite !subtreeHash_swap_inner
    by (apply siblingIndex_nonneg; lia).
  rewrite subtreeHash_swap_leaf; [done|..];
    destruct (siblingIndex_cases j) as [(?&->&?)|(?&->&?)]; lia.
Qed.

End Exchange.

(** C10, as the code has it: on every tree state, exchanging the leaf
    hashes stored at the sibling positions [2k] and [2k+1] leaves unchanged
    the hash of every node other than these two leaves, the root hash among
    them, and the proof generated for every other leaf, which therefore
    still verifies; the two leaf layouts commit to the same root. *)
Theorem sibling_leaves_exchange t (k : Z) :
  wf t → 0 ≤ k → 2 * k + 1 < treeCapacity →
  let t' := withLeaves t (swapSiblingLeaves k (treeLeafNodes t)) in
  (∀ node,
      0 ≤ level node ≤ treeHeight → 0 ≤ index node < 2 ^ level node →
      node ≠ mkNode treeHeight (2 * k) → node ≠ mkNode treeHeight (2 * k + 1) →
      getNodeHash t' node = getNodeHash t node) ∧
  getNodeHash t' (mkNode 0 0) = getNodeHash t (mkNode 0 0) ∧
  getRootHash t' = getRootHash t ∧
  (∀ j, 0 ≤ j → j ≠ 2 * k → j ≠ 2 * k + 1 →
      generateProof t' j = generateProof t j) ∧
  (∀ j proof d rootHash rootHash',
      0 ≤ j → j ≠ 2 * k → j ≠ 2 * k + 1 →
      generateProof t j = Ok proof →
      getNodeHash t (mkNode 0 0) = Some rootHash →
      verifyProof rootHash proof d = true →
      getNodeHash t' (mkNode 0 0) = Some rootHash' →
      verifyProof rootHash' proof d = true).
Proof.
  intros Hwf Hk Hlt t'. pose proof Hwf as [Hlen Hsize].
  change treeCapacity with 32 in Hlt, Hsize.
  assert (Hin : (Z.to_nat (2 * k + 1) < length (treeLeafNodes t))%nat)
    by (rewrite Hlen; change (Z.to_nat treeCapacity) with 32%nat; lia).
  assert (Hlen' : length (treeLeafNodes t') = Z.to_nat treeCapacity)
    by (simpl; by rewrite swapSiblingLeaves_length).
  assert (Hroot : getNodeHash t' (mkNode 0 0) = getNodeHash t (mkNode 0 0)).
  { rewrite !getNodeHash_root by done. f_equal.
    change (Z.to_nat treeHeight) with 5%nat.
    apply subtreeHash_swap_inner; [done|done|lia]. }
  split; [|split; [done|split; [done|split]]].
  - intros [l idx] Hl Hidx Hleft Hright. simpl in Hl, Hidx.
    replace l with (treeHeight - Z.of_nat (Z.to_nat (treeHeight - l))) by lia.
    rewrite !getNodeHash_subtree by (try done; rewrite ?Z2Nat.id; try lia;
      by replace (treeHeight - (treeHeight - l)) with l by lia).
    f_equal. simpl. destruct (Z.to_nat (treeHeight - l)) as [|d] eqn:Hd.
    + assert (l = treeHeight) as -> by lia.
      apply subtreeHash_swap_leaf; [done|done|lia|by intros ->..].
    + apply subtreeHash_swap_inner; [done|done|lia].
  - intros j Hj Hl Hr.
    destruct (decide (j < currentTreeSize t)) as [Hjlt|Hjge].
    + rewrite !generateProof_ok by (try done; simpl; lia).
      simpl. by rewrite proofOf_swap.
    + unfold generateProof, isEmpty. simpl.
      case_bool_decide; [done|].
      destruct (Z.geb_spec j (currentTreeSize t)); [done|lia].
  - intros j proof d R R' _ _ _ _ HR Hverify HR'. congruence.
Qed.

Lemma reachable_addAll ds : ∀ t, reachable t → reachable (addAll ds t).2.
Proof.
  induction ds as [|d ds IH]; intros t Hreach; [done|]. simpl.
  pose proof (reachable_add t d Hreach) as Hstep.
  destruct (addHashOf d t) as [[[]| |] t']; simpl in *; [by apply IH|done..].
Qed.

End Properties.

(** * The properties on the test scenario *)

Lemma proof_round_trip_witness :
  ∃ rootHash proof,
    getRootHash test_tree = Ok rootHash ∧
    generateProof test_tree 1 = Ok proof ∧
    verifyProof rootHash proof "data2" = true.
Proof.
  apply (proof_round_trip test_data test_tree 1 "data2");
    [reflexivity|by vm_compute|reflexivity].
Defined.

Lemma getPathFromLeafToRoot_spec_witness :
  ∃ path,
    getPathFromLeafToRoot (mkNode treeHeight 13) = Some path ∧
    length path = Z.to_nat treeHeight ∧
    path !! 0%nat = Some (mkNode treeHeight 13) ∧
    (∀ (k : nat) a b,
        path !! k = Some a → path !! S k = Some b →
        level b = level a - 1 ∧ index b = index a `div` 2) ∧
    (∃ a, last path = Some a ∧ level a = 1) ∧
    (∀ (k : nat) a, path !! k = Some a → 0 ≤ index a < 2 ^ level a).
Proof. apply (getPathFromLeafToRoot_spec 13). by vm_compute. Defined.

Lemma tamper_sensitivity_witness :
  verifyProof test_root test_proof "fake data" = false.
Proof.
  apply (tamper_sensitivity test_data test_tree 1 "data2" "fake data"
           test_root test_proof).
  - reflexivity.
  - by vm_compute.
  - reflexivity.
  - discriminate.
  - reflexivity.
  - reflexivity.
  - by vm_compute.
  - vm_compute. repeat split; intros _ Heq; discriminate Heq.
Defined.

Lemma currentRootHash_fresh_witness :
  (currentTreeSize test_tree ≠ 0 →
   getNodeHash test_tree (mkNode 0 0) = Some (currentRootHash test_tree)) ∧
  (currentTreeSize test_tree = 0 →
   currentRootHash test_tree = 0 ∧
   getRootHash test_tree = Throw MerkleTreeEmptyException).
Proof.
  apply (currentRootHash_fresh test_tree).
  apply reachable_addAll, reachable_empty.
Defined.

Lemma addHashOf_all_or_nothing_witness :
  let size := currentTreeSize test_tree in
  let r := (addHashOf "data4" test_tree).1 in
  let t' := (addHashOf "data4" test_tree).2 in
  (r = Ok () ∧
   treeLeafNodes t'
   = <[Z.to_nat size := hash_string "data4"]> (treeLeafNodes test_tree) ∧
   array_read (treeLeafNodes t') size = Some (hash_string "data4") ∧
   currentTreeSize t' = size + 1 ∧
   getNodeHash t' (mkNode 0 0) = Some (currentRootHash t'))
  ∨
  (r = Throw MerkleTreeFullException ∧ t' = test_tree).
Proof.
  apply (addHashOf_all_or_nothing test_tree "data4").
  split; [reflexivity|by vm_compute].
Defined.

Lemma error_boundaries_witness :
  let size := currentTreeSize test_tree in
  ((addHashOf "data4" test_tree).1 = Throw MerkleTreeFullException
   ↔ size = treeCapacity) ∧
  (size ≠ treeCapacity → (addHashOf "data4" test_tree).1 = Ok ()) ∧
  (getRootHash test_tree = Throw MerkleTreeEmptyException ↔ size = 0) ∧
  (size ≠ 0 → ∃ rootHash, getRootHash test_tree = Ok rootHash) ∧
  (generateProof test_tree 7 = Throw MerkleTreeEmptyException ↔ size = 0) ∧
  (size ≠ 0 →
   (generateProof test_tree 7 = Throw MerkleNodeIndexOutOfRangeException
    ↔ 7 >= size)) ∧
  (size ≠ 0 → 7 < size → ∃ proof, generateProof test_tree 7 = Ok proof).
Proof.
  apply (error_boundaries test_tree "data4" 7).
  - split; [reflexivity|by vm_compute].
  - by vm_compute.
Defined.

Lemma root_hash_deterministic_witness :
  getRootHash test_tree = getRootHash test_tree ∧
  getRootHash test_tree = Ok (rootOfData test_data).
Proof.
  apply (root_hash_deterministic test_data test_tree test_tree); reflexivity.
Defined.

Lemma sibling_leaves_exchange_witness :
  let t' := withLeaves test_tree (swapSiblingLeaves 0 (treeLeafNodes test_tree)) in
  (∀ node,
      0 ≤ level node ≤ treeHeight → 0 ≤ index node < 2 ^ level node →
      node ≠ mkNode treeHeight (2 * 0) → node ≠ mkNode treeHeight (2 * 0 + 1) →
      getNodeHash t' node = getNodeHash test_tree node) ∧
  getNodeHash t' (mkNode 0 0) = getNodeHash test_tree (mkNode 0 0) ∧
  getRootHash t' = getRootHash test_tree ∧
  (∀ j, 0 ≤ j → j ≠ 2 * 0 → j ≠ 2 * 0 + 1 →
      generateProof t' j = generateProof test_tree j) ∧
  (∀ j proof d rootHash rootHash',
      0 ≤ j → j ≠ 2 * 0 → j ≠ 2 * 0 + 1 →
      generateProof test_tree j = Ok proof →
      getNodeHash test_tree (mkNode 0 0) = Some rootHash →
      verifyProof rootHash proof d = true →
      getNodeHash t' (mkNode 0 0) = Some rootHash' →
      verifyProof rootHash' proof d = true).
Proof.
  apply (sibling_leaves_exchange test_tree 0).
  - split; [reflexivity|by vm_compute].
  - done.
  - by vm_compute.
Defined.

(** * Where the code departs from a stated property *)

(** C1 as stated asks for child hashes [l], [r] whose two orders combine
    to different parents; no hash engine has such a pair. *)
Lemma combine_never_order_sensitive :
  ¬ ∃ (H : StdHash) (l r : Z), combine l r ≠ combine r l.
Proof. intros (H & l & r & Hne). apply Hne, combine_sym. Qed.

(** C4 as stated includes the freshly constructed tree; under the FNV-1a
    engine its stored root hash, 0, is not the hash of the node (0, 0)
    over the all-zero leaf array. *)
Lemma empty_tree_root_not_recomputed :
  reachable emptyTree ∧
  getNodeHash emptyTree (mkNode 0 0) ≠ Some (currentRootHash emptyTree).
Proof. split; [apply reachable_empty|by vm_compute]. Qed.

(** C10 as stated speaks of every node; the two exchanged leaves are nodes
    too, and in the test tree the hash of the leaf (treeHeight, 0) is
    another one after the exchange of the leaves 0 and 1. *)
Lemma exchanged_leaf_hash_changes :
  let t' := withLeaves test_tree (swapSiblingLeaves 0 (treeLeafNodes test_tree)) in
  wf test_tree ∧
  getNodeHash t' (mkNode treeHeight 0) ≠ getNodeHash test_tree (mkNode treeHeight 0).
Proof. split; [split; [reflexivity|by vm_compute]|by vm_compute]. Qed.

(** * The cases of merkle_tree_tests.cpp, run on the model *)

Example test_adding_33rd_node_throws :
  (addAll (replicate (Z.to_nat treeCapacity) "data") emptyTree).1 = Ok () ∧
  addHashOf "33rd data node" full_tree = (Throw MerkleTreeFullException, full_tree).
Proof. by vm_compute. Qed.

Example test_root_hash_of_empty_tree_throws :
  getRootHash emptyTree = Throw MerkleTreeEmptyException.
Proof. reflexivity. Qed.

Example test_proof_for_out_of_range_index_throws :
  generateProof full_tree treeCapacity = Throw MerkleNodeIndexOutOfRangeException.
Proof. by vm_compute. Qed.

Example test_proof_for_empty_tree_throws :
  generateProof emptyTree 0 = Throw MerkleTreeEmptyException.
Proof. reflexivity. Qed.

Example test_valid_proof_returns_true :
  getRootHash test_tree = Ok test_root ∧
  generateProof test_tree 1 = Ok test_proof ∧
  verifyProof test_root test_proof "data2" = true.
Proof. by vm_compute. Qed.

Example test_invalid_proof_returns_false :
  verifyProof test_root test_proof "fake data" = false.
Proof. by vm_compute. Qed.

Example test_proof_invalid_after_adding :
  getRootHash test_tree_later = Ok (currentRootHash test_tree_later) ∧
  verifyProof (currentRootHash test_tree_later) test_proof "data2" = false.
Proof. by vm_compute. Qed.

(** * The identity engine

    It never collides on [std::size_t], and it maps the all-zero leaf
    array to the root hash 0, the initial value of [currentRootHash]. *)

Lemma identity_hash_no_collision proof : ∀ c c',
  @no_collision_along identity_hash c c' proof.
Proof.
  induction proof as [|p ps IH]; intros c c'; [done|]. split; [|apply IH].
  simpl. unfold wrap. by rewrite !Z.mod_mod.
Qed.

Example empty_tree_root_identity_hash :
  @getNodeHash identity_hash emptyTree (mkNode 0 0)
  = Some (currentRootHash emptyTree).
Proof. by vm_compute. Qed.

(** * Further properties of the code *)

Section NodeArithmetic.

Context `{StdHash}.

Lemma siblingIndex_involutive j : siblingIndex (siblingIndex j) = j.
Proof.
  destruct (siblingIndex_cases j) as [(Hj&Hs&_)|(Hj&Hs&_)];
    destruct (siblingIndex_cases (siblingIndex j)) as [(Hj'&->&_)|(Hj'&->&_)];
    rewrite Hs in *; lia.
Qed.

Lemma siblingIndex_in_size_t j : in_size_t j → in_size_t (siblingIndex j).
Proof.
  unfold in_size_t, size_t_modulus.
  destruct (siblingIndex_cases j) as [(?&->&?)|(?&->&?)]; lia.
Qed.

Lemma getSiblingNode_siblingIndex l j :
  in_size_t j → getSiblingNode (mkNode l j) = mkNode l (siblingIndex j).
Proof.
  intros Hj. pose proof (siblingIndex_in_size_t j Hj) as Hs.
  unfold getSiblingNode, siblingIndex in *. simpl.
  case_bool_decide; by rewrite wrap_small.
Qed.

(** X1: on every address whose index is a [std::size_t], [getSiblingNode]
    is its own inverse; the sibling is on the same level, has another
    index, the same parent index, and its index is again a
    [std::size_t] (no wrap-around at either end of the range). *)
Theorem getSiblingNode_involutive (n : MerkleNode) :
  in_size_t (index n) →
  getSiblingNode (getSiblingNode n) = n ∧
  level (getSiblingNode n) = level n ∧
  index (getSiblingNode n) ≠ index n ∧
  index (getSiblingNode n) `div` 2 = index n `div` 2 ∧
  in_size_t (index (getSiblingNode n)).
Proof.
  destruct n as [l j]. simpl. intros Hj.
  pose proof (siblingIndex_in_size_t j Hj) as Hs.
  rewrite !getSiblingNode_siblingIndex by done. simpl.
  rewrite siblingIndex_involutive.
  repeat split; try apply Hs.
  all: destruct (siblingIndex_cases j) as [(?&->&?)|(?&->&?)]; lia.
Qed.

(** X2: the two children of an address (index below 2^63, so that
    doubling does not wrap) are each other's sibling, lie on one common
    level, and halving the index of either gives back the parent's
    index. *)
Theorem children_are_siblings (n : MerkleNode) :
  0 ≤ index n < 2 ^ 63 →
  getSiblingNode (getLeftChild n) = getRightChild n ∧
  getSiblingNode (getRightChild n) = getLeftChild n ∧
  level (getLeftChild n) = level (getRightChild n) ∧
  index (getLeftChild n) `div` 2 = index n ∧
  index (getRightChild n) `div` 2 = index n.
Proof.
  destruct n as [l j]. simpl. intros Hj.
  unfold getLeftChild, getRightChild. simpl.
  assert (in_size_t (2 * j)) by (unfold in_size_t, size_t_modulus; lia).
  assert (in_size_t (2 * j + 1)) by (unfold in_size_t, size_t_modulus; lia).
  rewrite (wrap_small (2 * j)), (wrap_small (2 * j + 1)) by done.
  rewrite !getSiblingNode_siblingIndex by done.
  repeat split; try lia.
  all: f_equal.
  all: [> destruct (siblingIndex_cases (2 * j)) as [(?&->&?)|(?&?&?)]
        | destruct (siblingIndex_cases (2 * j + 1)) as [(?&?&?)|(?&->&?)] ]; lia.
Qed.

(** X3: along the path that [getPathFromLeafToRoot] returns for a leaf
    of the tree, every address is the left or the right child of the next
    one, and the last address is a child of the root (level 0, index 0). *)
Theorem path_steps_are_child_links (leafIndex : Z) path :
  0 ≤ leafIndex < 2 ^ treeHeight →
  getPathFromLeafToRoot (mkNode treeHeight leafIndex) = Some path →
  (∀ (k : nat) a b,
      path !! k = Some a → path !! S k = Some b →
      a = getLeftChild b ∨ a = getRightChild b) ∧
  (∀ a, last path = Some a →
      a = getLeftChild (mkNode 0 0) ∨ a = getRightChild (mkNode 0 0)).
Proof.
  intros Hleaf Hpath. change treeHeight with 5 in *.
  rewrite getPathFromLeafToRoot_eq in Hpath. injection Hpath as <-.
  assert (Hchild : ∀ l' l j, l' = l + 1 → 0 ≤ l < 5 → 0 ≤ j < 32 →
            mkNode l' j = getLeftChild (mkNode l (j `div` 2)) ∨
            mkNode l' j = getRightChild (mkNode l (j `div` 2))).
  { intros l' l j -> Hl Hj. unfold getLeftChild, getRightChild. simpl.
    rewrite !wrap_small by (apply in_size_t_small; lia).
    destruct (decide (j `mod` 2 = 0)); [left|right]; f_equal; lia. }
  split.
  - intros k a b Ha Hb.
    do 4 (destruct k as [|k]; [simplify_eq/=; apply Hchild; lia|]).
    destruct k; done.
  - intros a Ha. simplify_eq/=.
    replace 0 with (((((leafIndex `div` 2) `div` 2) `div` 2) `div` 2) `div` 2)
      at 2 4 by lia.
    apply Hchild; lia.
Qed.

End NodeArithmetic.

Section TreeOperations.

Context `{StdHash}.

Implicit Types (t : MerkleTree) (ds : list string).

(** X4: in a state that satisfies the class invariant, [getNodeHash]
    returns on every address of the tree (level at most [treeHeight],
    index below 2^level): the recursion ends and no read falls outside the
    leaf array.  On a leaf the result is the stored entry; above the
    leaves it is a [std::size_t], the combination of the results for the
    two children. *)
Theorem getNodeHash_defined t (node : MerkleNode) :
  wf t →
  0 ≤ level node ≤ treeHeight →
  0 ≤ index node < 2 ^ level node →
  ∃ h,
    getNodeHash t node = Some h ∧
    (level node = treeHeight →
     treeLeafNodes t !! Z.to_nat (index node) = Some h) ∧
    (level node < treeHeight →
     in_size_t h ∧
     ∃ l r,
       getNodeHash t (getLeftChild node) = Some l ∧
       getNodeHash t (getRightChild node) = Some r ∧
       h = combine l r).
Proof.
  destruct node as [l idx]. simpl. intros [Hlen Hsize] Hl Hidx.
  change treeHeight with 5 in *.
  assert (Hnode : getNodeHash t (mkNode l idx)
                  = Some (subtreeHash (treeLeafNodes t) (Z.to_nat (5 - l)) idx)).
  { replace l with (treeHeight - Z.of_nat (Z.to_nat (5 - l))) at 1
      by (change treeHeight with 5; lia).
    apply getNodeHash_subtree; [done|change treeHeight with 5; lia|].
    change treeHeight with 5. by replace (5 - Z.of_nat (Z.to_nat (5 - l))) with l by lia. }
  eexists. split; [exact Hnode|]. split.
  - intros ->. simpl. apply lookup_default.
    rewrite Hlen. change (Z.to_nat treeCapacity) with 32%nat. lia.
  - intros Hlt. destruct (Z.to_nat (5 - l)) as [|d] eqn:Hd; [lia|].
    split; [apply combine_range|].
    assert (Hpow : 2 ^ (l + 1) = 2 * 2 ^ l) by (rewrite Z.pow_add_r; lia).
    assert (2 ^ l ≤ 2 ^ 4) by (apply Z.pow_le_mono_r; lia).
    unfold getLeftChild, getRightChild. simpl.
    rewrite !wrap_small by (apply in_size_t_small; lia).
    eexists _, _. split; [|split; [|reflexivity]].
    + replace (l + 1) with (treeHeight - Z.of_nat d) by (change treeHeight with 5; lia).
      apply getNodeHash_subtree; [done|change treeHeight with 5; lia|].
      replace (treeHeight - Z.of_nat d) with (l + 1) by (change treeHeight with 5; lia).
      lia.
    + replace (l + 1) with (treeHeight - Z.of_nat d) by (change treeHeight with 5; lia).
      apply getNodeHash_subtree; [done|change treeHeight with 5; lia|].
      replace (treeHeight - Z.of_nat d) with (l + 1) by (change treeHeight with 5; lia).
      lia.
Qed.

(** X5: a proof that [generateProof] returns has [treeHeight] entries,
    one per address of the path from the leaf to the root, and the entry
    at each position is the node hash of the sibling of the path address at
    that position. *)
Theorem generateProof_sibling_hashes t (i : Z) (proof : list Z) :
  wf t → 0 ≤ i →
  generateProof t i = Ok proof →
  ∃ path,
    getPathFromLeafToRoot (mkNode treeHeight i) = Some path ∧
    length proof = Z.to_nat treeHeight ∧
    length proof = length path ∧
    (∀ (k : nat) node,
        path !! k = Some node →
        ∃ h, proof !! k = Some h ∧ getNodeHash t (getSiblingNode node) = Some h).
Proof.
  intros Hwf Hi Hgen. pose proof Hwf as [Hlen Hsize].
  change treeCapacity with 32 in Hsize.
  assert (i < currentTreeSize t) as Hlt.
  { unfold generateProof, isEmpty in Hgen.
    case_bool_decide; [discriminate|].
    destruct (Z.geb_spec i (currentTreeSize t)); [discriminate|done]. }
  rewrite generateProof_ok in Hgen by done. injection Hgen as <-.
  eexists. split; [apply getPathFromLeafToRoot_eq|].
  split; [reflexivity|]. split; [reflexivity|].
  intros k node Hnode.
  pose proof (getNodeHash_sibling t 0 i Hlen) as H0.
  pose proof (getNodeHash_sibling t 1 (i `div` 2) Hlen) as H1.
  pose proof (getNodeHash_sibling t 2 ((i `div` 2) `div` 2) Hlen) as H2.
  pose proof (getNodeHash_sibling t 3 (((i `div` 2) `div` 2) `div` 2) Hlen) as H3.
  pose proof (getNodeHash_sibling t 4 ((((i `div` 2) `div` 2) `div` 2) `div` 2) Hlen) as H4.
  change (treeHeight - Z.of_nat 0) with 5 in H0.
  change (treeHeight - Z.of_nat 1) with 4 in H1.
  change (treeHeight - Z.of_nat 2) with 3 in H2.
  change (treeHeight - Z.of_nat 3) with 2 in H3.
  change (treeHeight - Z.of_nat 4) with 1 in H4.
  change treeHeight with 5 in *.
  do 5 (destruct k as [|k];
        [simplify_eq/=; eexists; split; [reflexivity|];
         first [apply H0|apply H1|apply H2|apply H3|apply H4];
         clear H0 H1 H2 H3 H4; lia|]).
  done.
Qed.

(** X6: after a run of successful appends the fill count is the number
    of items, it does not exceed the capacity, the leaf array keeps its
    length, the slots below the fill count hold the hashes of the items in
    the order of appending, and every slot from the fill count on still
    holds the placeholder 0. *)
Theorem leaves_after_appends ds t :
  addAll ds emptyTree = (Ok (), t) →
  currentTreeSize t = Z.of_nat (length ds) ∧
  (length ds ≤ Z.to_nat treeCapacity)%nat ∧
  length (treeLeafNodes t) = Z.to_nat treeCapacity ∧
  (∀ (i : nat) d, ds !! i = Some d → treeLeafNodes t !! i = Some (hash_string d)) ∧
  (∀ (i : nat), (length ds ≤ i < Z.to_nat treeCapacity)%nat →
      treeLeafNodes t !! i = Some 0).
Proof.
  intros HInv%addAll_Inv. pose proof (Inv_wf _ _ HInv) as [Hlen _].
  destruct HInv as (Hds & Hleaves & Hsize & _).
  repeat split; try done.
  - intros i d Hd. rewrite Hleaves. by apply leavesOf_lookup.
  - intros i Hi. rewrite Hleaves. by apply leavesOf_unfilled.
Qed.

Lemma Inv_addAll_ok ds : ∀ ds0 t,
  Inv ds0 t → (length ds0 + length ds ≤ Z.to_nat treeCapacity)%nat →
  ∃ t', addAll ds t = (Ok (), t').
Proof.
  induction ds as [|d ds IH]; intros ds0 t HInv Hroom; simpl; [by eexists|].
  pose proof (Inv_wf _ _ HInv) as Hwf.
  pose proof HInv as (_ & _ & Hsize & _).
  simpl in Hroom. change (Z.to_nat treeCapacity) with 32%nat in Hroom.
  assert (currentTreeSize t ≠ treeCapacity) as Hfree
    by (change treeCapacity with 32; lia).
  pose proof (addHashOf_ok t d Hwf Hfree) as Hadd. cbv zeta in Hadd.
  rewrite Hadd. apply (IH (ds0 ++ [d])).
  - eapply Inv_addHashOf; [exact HInv|exact Hadd].
  - rewrite length_app. simpl. change (Z.to_nat treeCapacity) with 32%nat. lia.
Qed.

Lemma addAll_app ds1 : ∀ ds2 t t1,
  addAll ds1 t = (Ok (), t1) → addAll (ds1 ++ ds2) t = addAll ds2 t1.
Proof.
  induction ds1 as [|d ds1 IH]; intros ds2 t t1 Hrun; simpl in *.
  - by injection Hrun as <-.
  - destruct (addHashOf d t) as [[[]| |] t']; try discriminate. by apply IH.
Qed.

(** X7: a fresh tree takes exactly [treeCapacity] items: a run of at most
    that many appends succeeds, and in a longer run the first
    [treeCapacity] appends succeed, the next one throws
    [MerkleTreeFullException], and the tree is left in the state the
    first [treeCapacity] items gave it. *)
Theorem addAll_capacity ds :
  ((length ds ≤ Z.to_nat treeCapacity)%nat →
   ∃ t, addAll ds emptyTree = (Ok (), t)) ∧
  ((Z.to_nat treeCapacity < length ds)%nat →
   ∃ t, addAll (take (Z.to_nat treeCapacity) ds) emptyTree = (Ok (), t) ∧
        addAll ds emptyTree = (Throw MerkleTreeFullException, t)).
Proof.
  split.
  - intros Hfit. by apply (Inv_addAll_ok ds [] emptyTree Inv_emptyTree).
  - intros Hover.
    destruct (Inv_addAll_ok (take (Z.to_nat treeCapacity) ds) [] emptyTree
                Inv_emptyTree) as [t Hrun].
    { rewrite length_take. cbn [length]. lia. }
    exists t. split; [done|].
    rewrite <- (take_drop (Z.to_nat treeCapacity) ds) at 1.
    rewrite (addAll_app _ _ _ _ Hrun).
    apply addAll_Inv in Hrun. destruct Hrun as (_ & _ & Hsize & _).
    rewrite length_take in Hsize.
    destruct (drop (Z.to_nat treeCapacity) ds) as [|d rest] eqn:Hdrop.
    { apply (f_equal length) in Hdrop. rewrite length_drop in Hdrop.
      simpl in Hdrop. lia. }
    simpl. rewrite addHashOf_full; [done|].
    rewrite Hsize. change (Z.to_nat treeCapacity) with 32%nat.
    change treeCapacity with 32.
    change (Z.to_nat treeCapacity) with 32%nat in Hover. lia.
Qed.

(** X8: an item stays provable while the tree grows: after the appends
    [ds1] and the further appends [ds2], the proof generated anew for the
    [i]-th item of [ds1] verifies that item against the current root
    hash. *)
Theorem items_stay_provable ds1 ds2 t1 t2 (i : Z) d :
  addAll ds1 emptyTree = (Ok (), t1) →
  addAll ds2 t1 = (Ok (), t2) →
  0 ≤ i →
  ds1 !! Z.to_nat i = Some d →
  ∃ rootHash proof,
    getRootHash t2 = Ok rootHash ∧
    generateProof t2 i = Ok proof ∧
    verifyProof rootHash proof d = true.
Proof.
  intros Hrun1 Hrun2 Hi Hd. apply addAll_Inv in Hrun1.
  pose proof (Inv_addAll ds2 ds1 t1 t2 Hrun1 Hrun2) as HInv.
  destruct (Inv_generate_verify (ds1 ++ ds2) t2 i d HInv Hi) as (HR & HP & Hreplay).
  { by apply lookup_app_l_Some. }
  eexists _, _. split; [done|]. split; [done|].
  rewrite verifyProof_replay. by apply bool_decide_eq_true_2.
Qed.

End TreeOperations.

Section Locality.

Context `{StdHash}.

Implicit Types (t : MerkleTree) (leaves : list Z).

(** X9: [verifyProof] sees the data and the first proof entry only
    through their sum, so a proof that verifies [d] turns into one that
    verifies any other data [d']: replace the first entry [p] by
    [hash(d) + p - hash(d')] modulo 2^64, which is again a
    [std::size_t]. *)
Theorem verifyProof_forgeable rootHash (p : Z) (ps : list Z) d d' :
  verifyProof rootHash (p :: ps) d = true →
  let p' := wrap (hash_string d + p - hash_string d') in
  in_size_t p' ∧ verifyProof rootHash (p' :: ps) d' = true.
Proof.
  intros Hverify p'. split; [apply wrap_range|].
  assert (Hstep : combine (hash_string d') p' = combine (hash_string d) p).
  { unfold combine, p', wrap. f_equal.
    rewrite Z.add_mod_idemp_r by done. f_equal. lia. }
  rewrite <- Hverify. unfold verifyProof. cbn [fold_left]. by rewrite Hstep.
Qed.

Lemma getNodeHash_at t (l idx : Z) :
  length (treeLeafNodes t) = Z.to_nat treeCapacity →
  0 ≤ l ≤ treeHeight → 0 ≤ idx < 2 ^ l →
  getNodeHash t (mkNode l idx)
  = Some (subtreeHash (treeLeafNodes t) (Z.to_nat (treeHeight - l)) idx).
Proof.
  intros Hlen Hl Hidx.
  pose proof (getNodeHash_subtree t (Z.to_nat (treeHeight - l)) idx Hlen) as Hsub.
  rewrite Z2Nat.id in Hsub by lia.
  replace (treeHeight - (treeHeight - l)) with l in Hsub by lia.
  apply Hsub; [lia|done].
Qed.

(** A subtree does not see a write to a leaf outside of it. *)
Lemma subtreeHash_insert_outside leaves (n v : Z) (d : nat) : ∀ idx,
  0 ≤ n → 0 ≤ idx → n `div` 2 ^ Z.of_nat d ≠ idx →
  subtreeHash (<[Z.to_nat n := v]> leaves) d idx = subtreeHash leaves d idx.
Proof.
  induction d as [|d IH]; intros idx Hn Hidx Hout.
  - simpl in *. rewrite Z.div_1_r in Hout.
    rewrite list_lookup_insert_ne by lia. done.
  - assert (Hhalf : n `div` 2 ^ Z.of_nat (S d) = (n `div` 2 ^ Z.of_nat d) `div` 2).
    { rewrite Nat2Z.inj_succ, Z.pow_succ_r, Z.mul_comm by lia.
      rewrite Z.div_div by lia. done. }
    rewrite Hhalf in Hout. cbn [subtreeHash].
    rewrite !IH by lia. done.
Qed.

(** X10: an append changes node hashes only on the path from the new
    leaf to the root: every address of the tree whose index is not the
    index of the new leaf halved [treeHeight - level] times has the same
    node hash before and after a successful [addHashOf]. *)
Theorem addHashOf_is_local t data (node : MerkleNode) :
  wf t → currentTreeSize t ≠ treeCapacity →
  0 ≤ level node ≤ treeHeight →
  0 ≤ index node < 2 ^ level node →
  index node ≠ currentTreeSize t `div` 2 ^ (treeHeight - level node) →
  getNodeHash (addHashOf data t).2 node = getNodeHash t node.
Proof.
  destruct node as [l idx]. simpl. intros Hwf Hfree Hl Hidx Hout.
  pose proof Hwf as [Hlen Hsize].
  rewrite addHashOf_ok by done. cbv zeta.
  rewrite !getNodeHash_at by (simpl; rewrite ?length_insert; done).
  f_equal. simpl. apply subtreeHash_insert_outside; [lia..|].
  rewrite Z2Nat.id by lia. congruence.
Qed.

Lemma proofOf_insert_own leaves (i v : Z) :
  0 ≤ i → proofOf (<[Z.to_nat i := v]> leaves) i = proofOf leaves i.
Proof.
  intros Hi. unfold proofOf.
  rewrite (subtreeHash_insert_outside leaves i v 0),
          (subtreeHash_insert_outside leaves i v 1),
          (subtreeHash_insert_outside leaves i v 2),
          (subtreeHash_insert_outside leaves i v 3),
          (subtreeHash_insert_outside leaves i v 4); [done|..].
  all: try done.
  all: try (apply siblingIndex_nonneg; lia).
  all: match goal with |- _ `div` 2 ^ Z.of_nat ?d ≠ _ =>
         let p := eval cbv in (2 ^ Z.of_nat d) in
         change (2 ^ Z.of_nat d) with p
       end.
  all: match goal with |- _ ≠ siblingIndex ?j =>
         destruct (siblingIndex_cases j) as [(?&->&?)|(?&->&?)]
       end; lia.
Qed.

(** X11: the proof for a leaf does not depend on what is stored at that
    leaf: two states that differ only in the entry at index [i] answer
    [generateProof i] alike. *)
Theorem generateProof_ignores_own_leaf t (i v : Z) :
  wf t → 0 ≤ i →
  generateProof (withLeaves t (<[Z.to_nat i := v]> (treeLeafNodes t))) i
  = generateProof t i.
Proof.
  intros Hwf Hi. pose proof Hwf as [Hlen Hsize].
  destruct (decide (i < currentTreeSize t)) as [Hlt|Hge].
  - rewrite !generateProof_ok; try done.
    + simpl. by rewrite proofOf_insert_own.
    + split; simpl; [by rewrite length_insert|done].
  - unfold generateProof, isEmpty. simpl.
    case_bool_decide; [done|].
    destruct (Z.geb_spec i (currentTreeSize t)); [done|lia].
Qed.

Lemma emptySubtreeHash_S (d : nat) :
  emptySubtreeHash (S d) = combine (emptySubtreeHash d) (emptySubtreeHash d).
Proof. reflexivity. Qed.

Lemma subtreeHash_unfilled leaves (size : nat) :
  (∀ j : nat, (size ≤ j)%nat → default 0 (leaves !! j) = 0) →
  ∀ (d : nat) idx,
    0 ≤ idx → Z.of_nat size ≤ idx * 2 ^ Z.of_nat d →
    subtreeHash leaves d idx = emptySubtreeHash d.
Proof.
  intros Hzero. induction d as [|d IH]; intros idx Hidx Hsize.
  - simpl in *. apply Hzero. lia.
  - rewrite emptySubtreeHash_S. cbn [subtreeHash].
    rewrite Nat2Z.inj_succ, Z.pow_succ_r in Hsize by lia.
    assert (0 < 2 ^ Z.of_nat d) by (apply Z.pow_pos_nonneg; lia).
    rewrite !IH; [done|lia|nia|lia|nia].
Qed.

(** X12: in every reachable state, a node of the tree none of whose
    leaves is filled yet (its leftmost leaf, index times
    2^(treeHeight - level), is at or beyond the fill count) has the node
    hash [emptySubtreeHash] of its height: one value per level, whatever
    the index and the items appended so far. *)
Theorem unfilled_subtree_hash t (node : MerkleNode) :
  reachable t →
  0 ≤ level node ≤ treeHeight →
  0 ≤ index node < 2 ^ level node →
  currentTreeSize t ≤ index node * 2 ^ (treeHeight - level node) →
  getNodeHash t node
  = Some (emptySubtreeHash (Z.to_nat (treeHeight - level node))).
Proof.
  destruct node as [l idx]. simpl.
  intros [ds HInv]%reachable_Inv Hl Hidx Hfill.
  pose proof (Inv_wf _ _ HInv) as [Hlen _].
  destruct HInv as (Hds & Hleaves & Hsize & _).
  rewrite getNodeHash_at by done.
  f_equal. apply (subtreeHash_unfilled _ (length ds)); [|lia|].
  - intros j Hj. rewrite Hleaves.
    destruct (decide (j < Z.to_nat treeCapacity)%nat).
    + by rewrite leavesOf_unfilled.
    + rewrite lookup_ge_None_2; [done|].
      rewrite leavesOf_length by done. lia.
  - rewrite Z2Nat.id by lia. lia.
Qed.

End Locality.

(** * The further properties on the test scenario *)

Lemma getSiblingNode_involutive_witness :
  getSiblingNode (getSiblingNode (mkNode 5 13)) = mkNode 5 13 ∧
  level (getSiblingNode (mkNode 5 13)) = level (mkNode 5 13) ∧
  index (getSiblingNode (mkNode 5 13)) ≠ index (mkNode 5 13) ∧
  index (getSiblingNode (mkNode 5 13)) `div` 2 = index (mkNode 5 13) `div` 2 ∧
  in_size_t (index (getSiblingNode (mkNode 5 13))).
Proof. apply (getSiblingNode_involutive (mkNode 5 13)). by vm_compute. Defined.

Lemma children_are_siblings_witness :
  getSiblingNode (getLeftChild (mkNode 2 3)) = getRightChild (mkNode 2 3) ∧
  getSiblingNode (getRightChild (mkNode 2 3)) = getLeftChild (mkNode 2 3) ∧
  level (getLeftChild (mkNode 2 3)) = level (getRightChild (mkNode 2 3)) ∧
  index (getLeftChild (mkNode 2 3)) `div` 2 = index (mkNode 2 3) ∧
  index (getRightChild (mkNode 2 3)) `div` 2 = index (mkNode 2 3).
Proof. apply (children_are_siblings (mkNode 2 3)). by vm_compute. Defined.

Lemma path_steps_are_child_links_witness :
  let path := [mkNode 5 13; mkNode 4 6; mkNode 3 3; mkNode 2 1; mkNode 1 0] in
  (∀ (k : nat) a b,
      path !! k = Some a → path !! S k = Some b →
      a = getLeftChild b ∨ a = getRightChild b) ∧
  (∀ a, last path = Some a →
      a = getLeftChild (mkNode 0 0) ∨ a = getRightChild (mkNode 0 0)).
Proof.
  apply (path_steps_are_child_links 13); [by vm_compute|reflexivity].
Defined.

Lemma getNodeHash_defined_witness :
  ∃ h,
    getNodeHash test_tree (mkNode 3 2) = Some h ∧
    (level (mkNode 3 2) = treeHeight →
     treeLeafNodes test_tree !! Z.to_nat (index (mkNode 3 2)) = Some h) ∧
    (level (mkNode 3 2) < treeHeight →
     in_size_t h ∧
     ∃ l r,
       getNodeHash test_tree (getLeftChild (mkNode 3 2)) = Some l ∧
       getNodeHash test_tree (getRightChild (mkNode 3 2)) = Some r ∧
       h = combine l r).
Proof.
  apply (getNodeHash_defined test_tree (mkNode 3 2)).
  - split; [reflexivity|by vm_compute].
  - by vm_compute.
  - by vm_compute.
Defined.

Lemma generateProof_sibling_hashes_witness :
  ∃ path,
    getPathFromLeafToRoot (mkNode treeHeight 1) = Some path ∧
    length test_proof = Z.to_nat treeHeight ∧
    length test_proof = length path ∧
    (∀ (k : nat) node,
        path !! k = Some node →
        ∃ h, test_proof !! k = Some h ∧
             getNodeHash test_tree (getSiblingNode node) = Some h).
Proof.
  apply (generateProof_sibling_hashes test_tree 1 test_proof).
  - split; [reflexivity|by vm_compute].
  - done.
  - reflexivity.
Defined.

Lemma leaves_after_appends_witness :
  currentTreeSize test_tree = Z.of_nat (length test_data) ∧
  (length test_data ≤ Z.to_nat treeCapacity)%nat ∧
  length (treeLeafNodes test_tree) = Z.to_nat treeCapacity ∧
  (∀ (i : nat) d, test_data !! i = Some d →
      treeLeafNodes test_tree !! i = Some (hash_string d)) ∧
  (∀ (i : nat), (length test_data ≤ i < Z.to_nat treeCapacity)%nat →
      treeLeafNodes test_tree !! i = Some 0).
Proof. apply (leaves_after_appends test_data test_tree). reflexivity. Defined.

Lemma items_stay_provable_witness :
  ∃ rootHash proof,
    getRootHash test_tree_later = Ok rootHash ∧
    generateProof test_tree_later 1 = Ok proof ∧
    verifyProof rootHash proof "data2" = true.
Proof.
  apply (items_stay_provable test_data ["data4"] test_tree test_tree_later 1 "data2");
    [reflexivity|reflexivity|done|reflexivity].
Defined.

Lemma verifyProof_forgeable_witness :
  let p' := wrap (hash_string "data2" + hd 0 test_proof - hash_string "fake data") in
  in_size_t p' ∧ verifyProof test_root (p' :: tail test_proof) "fake data" = true.
Proof.
  apply (verifyProof_forgeable test_root (hd 0 test_proof) (tail test_proof)
           "data2" "fake data").
  by vm_compute.
Defined.

Lemma addHashOf_is_local_witness :
  getNodeHash (addHashOf "data4" test_tree).2 (mkNode 5 0)
  = getNodeHash test_tree (mkNode 5 0).
Proof.
  apply (addHashOf_is_local test_tree "data4" (mkNode 5 0)).
  - split; [reflexivity|by vm_compute].
  - by vm_compute.
  - by vm_compute.
  - by vm_compute.
  - by vm_compute.
Defined.

Lemma generateProof_ignores_own_leaf_witness :
  generateProof (withLeaves test_tree (<[Z.to_nat 1 := 42]> (treeLeafNodes test_tree))) 1
  = generateProof test_tree 1.
Proof.
  apply (generateProof_ignores_own_leaf test_tree 1 42).
  - split; [reflexivity|by vm_compute].
  - done.
Defined.

Lemma unfilled_subtree_hash_witness :
  getNodeHash test_tree (mkNode 4 2)
  = Some (emptySubtreeHash (Z.to_nat (treeHeight - level (mkNode 4 2)))).
Proof.
  apply (unfilled_subtree_hash test_tree (mkNode 4 2)).
  - apply reachable_addAll, reachable_empty.
  - by vm_compute.
  - by vm_compute.
  - by vm_compute.
Defined.

(** * Stale proofs *)

Section Staleness.

Context `{StdHash}.

Implicit Types (t : MerkleTree) (ds : list string).

Lemma getRootHash_Ok t R : getRootHash t = Ok R → R = currentRootHash t.
Proof.
  unfold getRootHash. destruct (isEmpty t); [discriminate|]. by intros [= <-].
Qed.

(** One append moves the root from the replay of the new leaf's proof
    from the placeholder 0 to its replay from the hash of the new item. *)
Lemma addHashOf_roots ds t d2 t2 :
  Inv ds t → addHashOf d2 t = (Ok (), t2) →
  let n := currentTreeSize t in
  generateProof t2 n = Ok (proofOf (treeLeafNodes t) n) ∧
  currentRootHash t2 = replay (hash_string d2) (proofOf (treeLeafNodes t) n) ∧
  rootOfData ds = replay 0 (proofOf (treeLeafNodes t) n).
Proof.
  intros HInv Hadd n. subst n. pose proof (Inv_wf _ _ HInv) as Hwf.
  pose proof Hwf as [Hlen Hsize]. change treeCapacity with 32 in Hsize.
  destruct HInv as (Hds & Hleaves & Hn & _).
  destruct (decide (currentTreeSize t = treeCapacity)) as [Hfull|Hfree].
  { rewrite addHashOf_full in Hadd by done. discriminate. }
  pose proof (addHashOf_ok t d2 Hwf Hfree) as Hok. cbv zeta in Hok.
  rewrite Hadd in Hok. apply (f_equal snd) in Hok. cbn [snd] in Hok. subst t2.
  change treeCapacity with 32 in Hfree.
  change (Z.to_nat treeCapacity) with 32%nat in Hds, Hlen.
  assert (Hin : (Z.to_nat (currentTreeSize t) < length (treeLeafNodes t))%nat)
    by (rewrite Hlen; lia).
  split; [|split].
  - rewrite generateProof_ok.
    + cbn [treeLeafNodes]. by rewrite proofOf_insert_own by lia.
    + split; cbn [treeLeafNodes currentTreeSize];
        [by rewrite length_insert|change treeCapacity with 32; lia].
    + cbn [currentTreeSize]. lia.
  - cbn [currentRootHash].
    rewrite <- (replay_proofOf _ (currentTreeSize t))
      by (change treeCapacity with 32; lia).
    rewrite proofOf_insert_own by lia. f_equal. cbn [subtreeHash].
    by rewrite list_lookup_insert_eq.
  - unfold rootOfData. rewrite <- Hleaves.
    rewrite <- (replay_proofOf _ (currentTreeSize t))
      by (change treeCapacity with 32; lia).
    f_equal. cbn [subtreeHash]. rewrite Hleaves, leavesOf_unfilled; [done|].
    change (Z.to_nat treeCapacity) with 32%nat. lia.
Qed.

(** C7, as the code has it: a proof generated for the [i]-th item under
    the root hash [R1] is checked against the root hash [R2] read after
    further successful appends [ds2].  [R1] and [R2] are the root hashes of
    the data before and after, and the check answers false exactly when
    [R2] differs from [R1].  After one further append it does, provided the
    hash of the new item is not the placeholder 0 and [hash_size_t] does
    not collide on the sums fed to it by the two replays of the new
    leaf's proof, from 0 and from the new hash.  After several appends no
    such proviso on the engine suffices (see [stale_proof_still_verifies]). *)
Theorem stale_proof_characterised ds1 ds2 t1 t2 (i : Z) d (proof : list Z) R1 R2 :
  addAll ds1 emptyTree = (Ok (), t1) →
  0 ≤ i < currentTreeSize t1 →
  ds1 !! Z.to_nat i = Some d →
  generateProof t1 i = Ok proof →
  getRootHash t1 = Ok R1 →
  addAll ds2 t1 = (Ok (), t2) →
  getRootHash t2 = Ok R2 →
  R1 = rootOfData ds1 ∧
  R2 = rootOfData (ds1 ++ ds2) ∧
  (verifyProof R2 proof d = false ↔ R2 ≠ R1) ∧
  (∀ d2 proof2,
      ds2 = [d2] →
      generateProof t2 (currentTreeSize t1) = Ok proof2 →
      hash_string d2 ≠ 0 →
      no_collision_along 0 (hash_string d2) proof2 →
      verifyProof R2 proof d = false).
Proof.
  intros Hrun1 Hi Hd HP HR1 Hrun2 HR2.
  apply addAll_Inv in Hrun1.
  pose proof (Inv_addAll ds2 ds1 t1 t2 Hrun1 Hrun2) as HInv2.
  assert (ds1 ≠ []) as Hne1 by (intros ->; by rewrite lookup_nil in Hd).
  assert (ds1 ++ ds2 ≠ []) as Hne2 by (by destruct ds1).
  apply getRootHash_Ok in HR1, HR2.
  rewrite (Inv_root _ _ Hrun1 Hne1) in HR1.
  rewrite (Inv_root _ _ HInv2 Hne2) in HR2.
  destruct (Inv_generate_verify ds1 t1 i d Hrun1) as (_ & HP' & Hreplay);
    [lia|done|].
  rewrite HP' in HP. injection HP as <-.
  rewrite (Inv_root _ _ Hrun1 Hne1), <- HR1 in Hreplay.
  assert (Hiff : verifyProof R2 (proofOf (treeLeafNodes t1) i) d = false ↔ R2 ≠ R1).
  { rewrite verifyProof_replay, Hreplay, bool_decide_eq_false. split; congruence. }
  split; [done|]. split; [done|]. split; [done|].
  intros d2 proof2 -> HP2 Hnonzero Hfree. apply Hiff.
  simpl in Hrun2.
  destruct (addHashOf d2 t1) as [[[]| |] t'] eqn:Hadd; try discriminate.
  injection Hrun2 as ->.
  destruct (addHashOf_roots ds1 t1 d2 t2 Hrun1 Hadd) as (HP2' & Hroot2 & Hroot1).
  rewrite HP2' in HP2. injection HP2 as <-.
  rewrite <- (Inv_root _ _ HInv2 Hne2), Hroot2 in HR2.
  rewrite Hroot1 in HR1. subst R1 R2.
  apply not_eq_sym.
  apply replay_distinct; [|apply hash_string_range|by apply not_eq_sym|done].
  unfold in_size_t, size_t_modulus. lia.
Qed.

End Staleness.

Lemma stale_proof_characterised_witness :
  test_root = rootOfData test_data ∧
  currentRootHash test_tree_later = rootOfData (test_data ++ ["data4"]) ∧
  (verifyProof (currentRootHash test_tree_later) test_proof "data2" = false
   ↔ currentRootHash test_tree_later ≠ test_root) ∧
  (∀ d2 proof2,
      ["data4"] = [d2] →
      generateProof test_tree_later (currentTreeSize test_tree) = Ok proof2 →
      hash_string d2 ≠ 0 →
      no_collision_along 0 (hash_string d2) proof2 →
      verifyProof (currentRootHash test_tree_later) test_proof "data2" = false).
Proof.
  apply (stale_proof_characterised test_data ["data4"] test_tree test_tree_later
           1 "data2" test_proof test_root (currentRootHash test_tree_later)).
  - reflexivity.
  - by vm_compute.
  - reflexivity.
  - reflexivity.
  - reflexivity.
  - reflexivity.
  - reflexivity.
Defined.

(** C7 as stated excepts only hash collisions.  Under [numeral_hash]
    [hash_size_t] is injective on [std::size_t] and the items "5", "1" and
    "18446744073709551615" have the distinct non-zero hashes 5, 1 and
    2^64 - 1; yet the root hash is 5 before and after the two further
    appends, whose hashes sum to 2^64, and the proof generated for "5"
    before them still verifies "5" against the root hash read after them. *)
Lemma stale_proof_still_verifies :
  (∀ x y, in_size_t x → in_size_t y →
      @hash_size_t numeral_hash x = @hash_size_t numeral_hash y → x = y) ∧
  @hash_string numeral_hash <$> ["5"; "1"; "18446744073709551615"]
  = [5; 1; 2 ^ 64 - 1] ∧
  @addAll numeral_hash ["5"] emptyTree = (Ok (), cancel_tree) ∧
  @generateProof numeral_hash cancel_tree 0 = Ok cancel_proof ∧
  getRootHash cancel_tree = Ok 5 ∧
  @addAll numeral_hash ["1"; "18446744073709551615"] cancel_tree
  = (Ok (), cancel_tree_later) ∧
  getRootHash cancel_tree_later = Ok 5 ∧
  @verifyProof numeral_hash 5 cancel_proof "5" = true.
Proof.
  split.
  - intros x y Hx Hy. simpl. by rewrite !wrap_small.
  - by vm_compute.
Qed.
